(** * generate-exports.mjs: header scan and export manifests

    A shallow embedding of [build/generate-exports.mjs], the build step of
    qpdf-wasm that reads [qpdf-c.h], strips its comments, collects the
    [QPDF_DLL]-marked [qpdf_*] functions with a regular expression, merges
    them with a hand-kept list and writes four export manifests.

    JavaScript strings are sequences of UTF-16 code units; they are modelled
    as [list N].  The three regular expressions of the script are written in
    a small syntax and run by a backtracking matcher that tries the
    alternatives in the order ECMAScript does (greedy: longest first, lazy:
    shortest first).  The file system and the two console streams are an
    explicit world threaded through a state-and-exception monad. *)

From Stdlib Require Import NArith List String Ascii Bool Lia.
From stdpp Require Import base list strings gmap.
Import ListNotations.

Local Open Scope N_scope.
Local Open Scope list_scope.

(** ** Text *)

(** A JavaScript string: its UTF-16 code units. *)
Abbreviation text := (list N).

(** The code units of an ASCII literal of the source. *)
Definition js (s : string) : text :=
  List.map N_of_ascii (list_ascii_of_string s).

(** The double quote and the line feed, which a literal cannot hold. *)
Definition dq : text := [34].
Definition nl : text := [10].

(** [Array.prototype.join]. *)
Fixpoint join (sep : text) (parts : list text) : text :=
  match parts with
  | [] => []
  | [p] => p
  | p :: rest => p ++ sep ++ join sep rest
  end.

(** Strict equality of two strings. *)
Fixpoint text_eqb (a b : text) : bool :=
  match a, b with
  | [], [] => true
  | x :: a', y :: b' => N.eqb x y && text_eqb a' b'
  | _, _ => false
  end.

Fixpoint starts_with (needle hay : text) : bool :=
  match needle, hay with
  | [], _ => true
  | x :: needle', y :: hay' => N.eqb x y && starts_with needle' hay'
  | _ :: _, [] => false
  end.

(** [String.prototype.includes]: the needle occurs at some index. *)
Fixpoint includes (hay needle : text) : bool :=
  starts_with needle hay ||
  match hay with
  | [] => false
  | _ :: hay' => includes hay' needle
  end.

(** [Array.prototype.includes] on an array of strings. *)
Definition arr_includes (arr : list text) (f : text) : bool :=
  existsb (text_eqb f) arr.

(** ** Character classes of ECMAScript regular expressions *)

(** [\w]: ASCII letters, digits and the underscore. *)
Definition is_word (c : N) : bool :=
  ((48 <=? c) && (c <=? 57)) || ((65 <=? c) && (c <=? 90)) ||
  (c =? 95) || ((97 <=? c) && (c <=? 122)).

(** LineTerminator: LF, CR, LS, PS. *)
Definition is_line_terminator (c : N) : bool :=
  (c =? 10) || (c =? 13) || (c =? 8232) || (c =? 8233).

(** [\s]: WhiteSpace and LineTerminator. *)
Definition is_space (c : N) : bool :=
  (c =? 9) || (c =? 10) || (c =? 11) || (c =? 12) || (c =? 13) ||
  (c =? 32) || (c =? 160) || (c =? 5760) ||
  ((8192 <=? c) && (c <=? 8202)) ||
  (c =? 8232) || (c =? 8233) || (c =? 8239) || (c =? 8287) ||
  (c =? 12288) || (c =? 65279).

Inductive cclass : Type :=
| CWord                       (* \w *)
| CSpace                      (* \s *)
| CNonSpace                   (* \S *)
| CDot                        (* .  (no s flag) *)
| CLit (c : N)                (* an escaped character inside brackets *)
| CUnion (a b : cclass).      (* [ab] *)

Fixpoint in_class (p : cclass) (c : N) : bool :=
  match p with
  | CWord => is_word c
  | CSpace => is_space c
  | CNonSpace => negb (is_space c)
  | CDot => negb (is_line_terminator c)
  | CLit x => c =? x
  | CUnion a b => in_class a c || in_class b c
  end.

(** ** Regular expressions and the backtracking matcher *)

(** The script's patterns are sequences of these nodes; every quantifier in
    them applies to a single character class, and there is one capture
    group. *)
Inductive node : Type :=
| Chr (c : N)                 (* a literal character *)
| Star (p : cclass)           (* p*   greedy *)
| StarLazy (p : cclass)       (* p*?  lazy *)
| Plus (p : cclass)           (* p+   greedy *)
| Eol                         (* $ under the m flag *)
| GroupOpen                   (* ( *)
| GroupClose.                 (* ) *)

Abbreviation regex := (list node).

Definition lit (s : string) : regex := List.map Chr (js s).

(** What a match has consumed so far, and the text of group 1. *)
Record mstate : Type := MState {
  consumed : nat;
  capturing : bool;
  group1 : text
}.

Definition mstart : mstate := MState 0 false [].

Definition advance (st : mstate) (c : N) : mstate :=
  MState (S (consumed st)) (capturing st)
         (if capturing st then group1 st ++ [c] else group1 st).

Definition group_open (st : mstate) : mstate := MState (consumed st) true [].
Definition group_close (st : mstate) : mstate :=
  MState (consumed st) false (group1 st).

(** [$] with the m flag: at the end of input or before a line terminator. *)
Definition at_line_end (s : text) : bool :=
  match s with
  | [] => true
  | c :: _ => is_line_terminator c
  end.

(** A quantified class followed by the continuation [k].  Greedy: take one
    more character first and fall back to [k]; lazy: try [k] first. *)
Fixpoint repeat_class (lazy : bool) (p : N -> bool)
         (k : text -> mstate -> option mstate)
         (s : text) (st : mstate) : option mstate :=
  match s with
  | [] => k [] st
  | c :: s' =>
      if p c then
        if lazy then
          match k s st with
          | Some r => Some r
          | None => repeat_class lazy p k s' (advance st c)
          end
        else
          match repeat_class lazy p k s' (advance st c) with
          | Some r => Some r
          | None => k s st
          end
      else k s st
  end.

Fixpoint match_from (r : regex) (s : text) (st : mstate) : option mstate :=
  match r with
  | [] => Some st
  | Chr x :: r' =>
      match s with
      | c :: s' => if c =? x then match_from r' s' (advance st c) else None
      | [] => None
      end
  | Star p :: r' => repeat_class false (in_class p) (match_from r') s st
  | StarLazy p :: r' => repeat_class true (in_class p) (match_from r') s st
  | Plus p :: r' =>
      match s with
      | c :: s' =>
          if in_class p c
          then repeat_class false (in_class p) (match_from r') s' (advance st c)
          else None
      | [] => None
      end
  | Eol :: r' => if at_line_end s then match_from r' s st else None
  | GroupOpen :: r' => match_from r' s (group_open st)
  | GroupClose :: r' => match_from r' s (group_close st)
  end.

(** A match attempt at the start of [s]: the length of the match and the
    text of group 1. *)
Definition match_at (r : regex) (s : text) : option (nat * text) :=
  match match_from r s mstart with
  | Some st => Some (consumed st, group1 st)
  | None => None
  end.

(** [s.replace(r, '')] for a global [r].  The scan tries a match at every
    index from left to right; a match is dropped and the scan resumes at its
    end ([skip] counts the characters of the current match still to pass);
    an empty match drops nothing and the scan moves on by one. *)
Fixpoint replace_empty (r : regex) (skip : nat) (s : text) : text :=
  match s with
  | [] => []
  | c :: s' =>
      match skip with
      | S n => replace_empty r n s'
      | O =>
          match match_at r s with
          | Some (S n, _) => replace_empty r n s'
          | Some (O, _) | None => c :: replace_empty r O s'
          end
      end
  end.

(** The loop [while ((match = r.exec(s)) !== null) out.push(match[1])] for
    a global [r] none of whose matches is empty: [exec] finds the leftmost
    match at or after [lastIndex] and moves [lastIndex] to its end. *)
Fixpoint exec_all (r : regex) (skip : nat) (s : text) : list text :=
  match s with
  | [] => []
  | _ :: s' =>
      match skip with
      | S n => exec_all r n s'
      | O =>
          match match_at r s with
          | Some (S n, g) => g :: exec_all r n s'
          | Some (O, _) | None => exec_all r O s'
          end
      end
  end.

(** ** The script: configuration (section 1) *)

Definition manualCFunctions : list text :=
  [ js "malloc"; js "free"; js "main";
    js "getenv"; js "setenv"; js "unsetenv";
    js "qpdf_init_write_stream"; js "qpdf_write_begin";
    js "qpdf_write_continue"; js "qpdf_get_write_progress" ].

Definition runtimeMethods : list text :=
  [ js "ccall"; js "cwrap"; js "setValue"; js "getValue";
    js "addFunction"; js "removeFunction"; js "stringToUTF8";
    js "UTF8ToString"; js "lengthBytesUTF8"; js "FS"; js "NODEFS";
    js "WORKERFS"; js "ENV"; js "callMain" ].

Definition incomingMethods : list text :=
  [ js "noInitialRun"; js "noFSInit"; js "locateFile"; js "preRun" ].

(** ** The script: parsing of qpdf-c.h (section 3) *)

(** [/\/\*[\s\S]*?\*\//g] *)
Definition blockCommentRegex : regex :=
  [Chr 47; Chr 42; StarLazy (CUnion CSpace CNonSpace); Chr 42; Chr 47].

(** [/\/\/.*$/gm] *)
Definition lineCommentRegex : regex :=
  [Chr 47; Chr 47; Star CDot; Eol].

Definition stripBlockComments (s : text) : text :=
  replace_empty blockCommentRegex 0 s.
Definition stripLineComments (s : text) : text :=
  replace_empty lineCommentRegex 0 s.

Definition contentWithoutComments (headerContent : text) : text :=
  stripLineComments (stripBlockComments headerContent).

(** [/QPDF_DLL\s+[\w\s\*]+\s+(qpdf_\w+)\s*\(/g] *)
Definition funcRegex : regex :=
  lit "QPDF_DLL" ++
  [Plus CSpace; Plus (CUnion CWord (CUnion CSpace (CLit 42))); Plus CSpace;
   GroupOpen] ++
  lit "qpdf_" ++
  [Plus CWord; GroupClose; Star CSpace; Chr 40].

Definition foundFunctions (headerContent : text) : list text :=
  exec_all funcRegex 0 (contentWithoutComments headerContent).

(** The callback of [filter], with the array literal in it named. *)
Definition keeps (exclude : list text) (f : text) : bool :=
  negb (includes f (js "_reserved")) && negb (arr_includes exclude f).

(** The array literal of [exportedFunctions] with its two lists named. *)
Definition assemble (manual exclude found : list text) : list text :=
  manual ++ List.filter (keeps exclude) found.

Definition cppHelpers : list text := [js "qpdf_c_wrap"; js "qpdf_c_get_qpdf"].

Definition exportedFunctions (found : list text) : list text :=
  assemble manualCFunctions cppHelpers found.

(** ** The script: the four artifacts (sections 4 to 7) *)

Definition quoted (m : text) : text := dq ++ m ++ dq.

(** Emscripten expects C functions to be prefixed with an underscore. *)
Definition functionsContent (exported : list text) : text :=
  js "[" ++
  join (js ",") (List.map (fun f => dq ++ js "_" ++ f ++ dq) exported) ++
  js "]".

Definition runtimeContent : text :=
  js "[" ++ join (js ",") (List.map quoted runtimeMethods) ++ js "]".

Definition incomingContent : text :=
  js "[" ++ join (js ",") (List.map quoted incomingMethods) ++ js "]".

(** The template literal of [tsContent], cut at its two interpolations. *)
Definition tsBanner : text :=
  js "/* AUTO-GENERATED - DO NOT EDIT BY HAND */" ++ nl ++
  js "/* Generated by build/generate-exports.mjs */" ++ nl ++
  js "/// <reference types=" ++ dq ++ js "emscripten" ++ dq ++ js " />" ++ nl ++
  nl.

Definition tsArray (name : text) (items : list text) : text :=
  js "export const " ++ name ++ js " = [" ++ nl ++
  join (js "," ++ nl) (List.map (fun f => js "  " ++ dq ++ f ++ dq) items) ++ nl ++
  js "] as const;" ++ nl.

Definition tsContent (exported : list text) : text :=
  tsBanner ++
  tsArray (js "allExportedFunctions") exported ++ nl ++
  tsArray (js "allRuntimeMethods") runtimeMethods.

(** ** The world: file system and console *)

(** The calls into [node:fs], in the order the script makes them. *)
Inductive call : Type :=
| CallMkdir (path : text)
| CallRead (path : text)
| CallWrite (path content : text).

(** [files] holds the regular files and their decoded content; [dirs] the
    directories [mkdirSync] has made; on a path in [locked] the system
    refuses every operation (permission denied, read-only medium).
    [stdout] and [stderr] hold the lines of [console.log] and
    [console.error]; what Node itself prints about an exception nobody
    caught is not in them. *)
Record World : Type := mkWorld {
  files : gmap text text;
  dirs : gset text;
  locked : gset text;
  stdout : list text;
  stderr : list text;
  calls : list call
}.

Inductive error : Type :=
| ENOENT (path : text)
| EACCES (path : text).

(** How a computation ends: with a value, by [process.exit], or by an
    exception on its way up. *)
Inductive result (A : Type) : Type :=
| Val (a : A)
| Exit (code : N)
| Throw (e : error).
Arguments Val {A} a.
Arguments Exit {A} code.
Arguments Throw {A} e.

Definition M (A : Type) : Type := World -> result A * World.

Definition ret {A} (a : A) : M A := fun w => (Val a, w).

Definition bind {A B} (m : M A) (k : A -> M B) : M B :=
  fun w =>
    match m w with
    | (Val a, w') => k a w'
    | (Exit c, w') => (Exit c, w')
    | (Throw e, w') => (Throw e, w')
    end.

Declare Scope script_scope.
Delimit Scope script_scope with script.
Notation "x <- m ;; k" := (bind m (fun x => k))
  (at level 100, m at next level, right associativity) : script_scope.
Notation "m ;; k" := (bind m (fun _ => k))
  (at level 100, right associativity) : script_scope.

(** [try { m } catch (e) { handler }] *)
Definition try_catch {A} (m : M A) (handler : error -> M A) : M A :=
  fun w =>
    match m w with
    | (Throw e, w') => handler e w'
    | other => other
    end.

Definition record_call (c : call) (w : World) : World :=
  mkWorld (files w) (dirs w) (locked w) (stdout w) (stderr w) (calls w ++ [c]).

Definition console_log (line : text) : M unit :=
  fun w => (Val tt, mkWorld (files w) (dirs w) (locked w)
                            (stdout w ++ [line]) (stderr w) (calls w)).

Definition console_error (line : text) : M unit :=
  fun w => (Val tt, mkWorld (files w) (dirs w) (locked w)
                            (stdout w) (stderr w ++ [line]) (calls w)).

Definition process_exit {A} (code : N) : M A := fun w => (Exit code, w).

(** [mkdirSync(path, { recursive: true })]: no error when the directory
    exists already. *)
Definition mkdirSync (path : text) : M unit :=
  fun w =>
    let w := record_call (CallMkdir path) w in
    if decide (path ∈ locked w) then (Throw (EACCES path), w)
    else (Val tt, mkWorld (files w) ({[path]} ∪ dirs w) (locked w)
                          (stdout w) (stderr w) (calls w)).

(** [readFileSync(path, 'utf8')] *)
Definition readFileSync (path : text) : M text :=
  fun w =>
    let w := record_call (CallRead path) w in
    if decide (path ∈ locked w) then (Throw (EACCES path), w)
    else match files w !! path with
         | Some content => (Val content, w)
         | None => (Throw (ENOENT path), w)
         end.

(** [writeFileSync(path, content, 'utf8')]: the file is made or replaced. *)
Definition writeFileSync (path content : text) : M unit :=
  fun w =>
    let w := record_call (CallWrite path content) w in
    if decide (path ∈ locked w) then (Throw (EACCES path), w)
    else (Val tt, mkWorld (<[path := content]> (files w)) (dirs w) (locked w)
                          (stdout w) (stderr w) (calls w)).

(** What Node hands to the script: [path.resolve], the directory of the
    script file, the working directory and [process.argv.slice(2)]. *)
Record Env : Type := mkEnv {
  resolve : list text -> text;
  selfDir : text;
  cwd : text;
  args : list text
}.

(** ** The script: output and arguments (section 2) *)

Definition outDir (e : Env) : text :=
  resolve e [match args e with a :: _ => a | [] => selfDir e end].

(** [Array.prototype.indexOf], [None] for -1. *)
Fixpoint index_of (x : text) (l : list text) : option nat :=
  match l with
  | [] => None
  | y :: l' => if text_eqb y x then Some O
               else match index_of x l' with
                    | Some i => Some (S i)
                    | None => None
                    end
  end.

Definition includeDir (e : Env) : text :=
  let default := resolve e [selfDir e; js "../../qpdf/include/qpdf"] in
  match index_of (js "--qpdf-include") (args e) with
  | Some includeArgIndex =>
      match nth_error (args e) (S includeArgIndex) with
      | Some (c :: rest) => resolve e [cwd e; c :: rest]
      | Some [] | None => default
      end
  | None => default
  end.

Definition headerPath (e : Env) : text :=
  resolve e [includeDir e; js "qpdf-c.h"].

Definition artifactPath (e : Env) (name : string) : text :=
  resolve e [outDir e; js name].

(** A number in a template literal. *)
Fixpoint uint_text (d : Decimal.uint) : text :=
  match d with
  | Decimal.Nil => []
  | Decimal.D0 d' => 48 :: uint_text d'
  | Decimal.D1 d' => 49 :: uint_text d'
  | Decimal.D2 d' => 50 :: uint_text d'
  | Decimal.D3 d' => 51 :: uint_text d'
  | Decimal.D4 d' => 52 :: uint_text d'
  | Decimal.D5 d' => 53 :: uint_text d'
  | Decimal.D6 d' => 54 :: uint_text d'
  | Decimal.D7 d' => 55 :: uint_text d'
  | Decimal.D8 d' => 56 :: uint_text d'
  | Decimal.D9 d' => 57 :: uint_text d'
  end.

Definition decimal (n : nat) : text := uint_text (Nat.to_uint n).

(** The two lines of the [catch] block; the first starts with U+274C. *)
Definition readFailure (path : text) : list text :=
  [ [10060] ++ js " Failed to read header file at " ++ path;
    js "Make sure git submodules are initialized and you are running from the correct directory." ].

(** The two summary lines; the first starts with U+1F50D. *)
Definition summary (found : list text) : list text :=
  [ [55357; 56589] ++ js " Discovered " ++ decimal (length found) ++
      js " QPDF functions from header.";
    js "   (Plus " ++ decimal (length manualCFunctions) ++
      js " manual exports: " ++ join (js ", ") manualCFunctions ++ js ")" ].

Local Open Scope script_scope.

(** ** The script, top to bottom *)

Definition readHeader (e : Env) : M text :=
  try_catch (readFileSync (headerPath e))
    (fun _ =>
       console_error (nth 0 (readFailure (headerPath e)) []) ;;
       console_error (nth 1 (readFailure (headerPath e)) []) ;;
       process_exit 1).

Definition generateExports (e : Env) : M unit :=
  console_log (js "Output Directory: " ++ outDir e) ;;
  console_log (js "Include Directory: " ++ includeDir e) ;;
  mkdirSync (outDir e) ;;
  console_log (js "Parsing header: " ++ headerPath e) ;;
  headerContent <- readHeader e ;;
  let found := foundFunctions headerContent in
  let exported := exportedFunctions found in
  console_log (nth 0 (summary found) []) ;;
  console_log (nth 1 (summary found) []) ;;
  let functions := functionsContent exported in
  writeFileSync (artifactPath e "exported-functions.txt") functions ;;
  let runtime := runtimeContent in
  writeFileSync (artifactPath e "exported-runtime-methods.txt") runtime ;;
  let incoming := incomingContent in
  writeFileSync (artifactPath e "exported-incoming-methods.txt") incoming ;;
  let ts := tsContent exported in
  writeFileSync (artifactPath e "runtime-methods.ts") ts ;;
  console_log ([9989] ++ js " Generated WASM export configs in " ++ outDir e).

(** The exit status of the process: 0 when the script runs to its end, the
    argument of [process.exit], and 1 for an exception nobody caught. *)
Definition exit_status {A} (r : result A) : N :=
  match r with
  | Val _ => 0
  | Exit code => code
  | Throw _ => 1
  end.

Definition run (e : Env) (w : World) : N * World :=
  let (r, w') := generateExports e w in (exit_status r, w').

(** * Vocabulary of the statements *)

(** ** The manifest *)

(** The merge as the design document words it: the discovered names
    without those that are members of the exclusion list. *)
Definition assemble_as_specified
           (manual exclude discovered : list text) : list text :=
  manual ++ List.filter (fun f => negb (arr_includes exclude f)) discovered.

(** The filter removes [f]. *)
Definition dropped (exclude : list text) (f : text) : bool :=
  negb (keeps exclude f).

(** How often [f] occurs in [l]. *)
Definition occurrences (f : text) (l : list text) : nat :=
  length (List.filter (text_eqb f) l).

(** [needle] is a substring of [hay]. *)
Definition contains (needle hay : text) : Prop :=
  exists pre post, hay = pre ++ needle ++ post.

(** ** Comments *)

(** The index of the first closing marker of a block comment in [s]. *)
Fixpoint find_close (s : text) : option nat :=
  match s with
  | [] => None
  | c :: s' =>
      if (c =? 42) && match s' with d :: _ => d =? 47 | [] => false end
      then Some O
      else match find_close s' with Some k => Some (S k) | None => None end
  end.








(** The number of characters before the first line terminator of [s]. *)
Fixpoint line_length (s : text) : nat :=
  match s with
  | [] => O
  | c :: s' => if is_line_terminator c then O else S (line_length s')
  end.

(** Line comments as a two-state scanner sees them: [inside] a comment the
    characters are dropped up to the line terminator, which is kept. *)
Fixpoint scan_lines (inside : bool) (s : text) : text :=
  match s with
  | [] => []
  | c :: s' =>
      if inside then
        if is_line_terminator c then c :: scan_lines false s'
        else scan_lines true s'
      else if (c =? 47) && match s' with d :: _ => d =? 47 | [] => false end
           then scan_lines true s'
           else c :: scan_lines false s'
  end.

(** ** Matches *)

Fixpoint advance_all (st : mstate) (run : text) : mstate :=
  match run with
  | [] => st
  | c :: run' => advance_all (advance st c) run'
  end.

(** What a regular expression matches, whatever the order of the attempts:
    [denotes r s st st'] when [r] matches a prefix of [s] and takes the
    state [st] to [st']. *)
Fixpoint denotes (r : regex) (s : text) (st st' : mstate) : Prop :=
  match r with
  | [] => st' = st
  | Chr x :: r' => exists s', s = x :: s' /\ denotes r' s' (advance st x) st'
  | Star p :: r' | StarLazy p :: r' =>
      exists run s', s = run ++ s' /\ forallb (in_class p) run = true /\
                     denotes r' s' (advance_all st run) st'
  | Plus p :: r' =>
      exists run s', s = run ++ s' /\ run <> [] /\
                     forallb (in_class p) run = true /\
                     denotes r' s' (advance_all st run) st'
  | Eol :: r' => at_line_end s = true /\ denotes r' s st st'
  | GroupOpen :: r' => denotes r' s (group_open st) st'
  | GroupClose :: r' => denotes r' s (group_close st) st'
  end.

(** ** Declarations *)

(** [[\w\s\*]]: a character of a return type. *)
Definition is_type_char (c : N) : bool :=
  in_class (CUnion CWord (CUnion CSpace (CLit 42))) c.

Definition not_paren (c : N) : bool := negb (c =? 40).

Definition nonempty (s : text) : bool :=
  match s with [] => false | _ :: _ => true end.

(** A declaration up to its parenthesis: the marker, white space, the
    return type, white space, the identifier, optional white space. *)
Definition decl_body (ws1 rtype ws2 name ws3 : text) : text :=
  js "QPDF_DLL" ++ ws1 ++ rtype ++ ws2 ++ js "qpdf_" ++ name ++ ws3.

Definition declaration (ws1 rtype ws2 name ws3 : text) : text :=
  js "QPDF_DLL" ++ ws1 ++ rtype ++ ws2 ++ js "qpdf_" ++ name ++ ws3 ++ js "(".

Definition well_shaped (ws1 rtype ws2 name ws3 : text) : bool :=
  nonempty ws1 && forallb is_space ws1 &&
  nonempty rtype && forallb is_type_char rtype &&
  nonempty ws2 && forallb is_space ws2 &&
  nonempty name && forallb is_word name &&
  forallb is_space ws3.

(** ** Artifacts as a reader sees them *)

(** The strings between double quotes, in order. *)
Fixpoint quoted_from (inside : bool) (cur : text) (s : text) : list text :=
  match s with
  | [] => []
  | c :: s' =>
      if c =? 34 then
        if inside then cur :: quoted_from false [] s'
        else quoted_from true [] s'
      else quoted_from inside (if inside then cur ++ [c] else cur) s'
  end.

Definition quoted_strings (s : text) : list text := quoted_from false [] s.

Definition no_quote (s : text) : bool := forallb (fun c => negb (c =? 34)) s.

(** ** Runs *)

(** The four files and their content, in the order of the writes. *)
Definition artifacts (e : Env) (headerContent : text) : list (text * text) :=
  let exported := exportedFunctions (foundFunctions headerContent) in
  [ (artifactPath e "exported-functions.txt", functionsContent exported);
    (artifactPath e "exported-runtime-methods.txt", runtimeContent);
    (artifactPath e "exported-incoming-methods.txt", incomingContent);
    (artifactPath e "runtime-methods.ts", tsContent exported) ].

(** The writes that succeed: those before the first locked path. *)
Fixpoint until_locked (L : gset text) (ws : list (text * text))
  : list (text * text) :=
  match ws with
  | [] => []
  | (p, c) :: rest =>
      if decide (p ∈ L) then [] else (p, c) :: until_locked L rest
  end.

(** The writes that are called: the successful ones and the refused one. *)
Definition attempted (L : gset text) (ws : list (text * text))
  : list (text * text) :=
  firstn (S (length (until_locked L ws))) ws.

Definition write_files (ws : list (text * text)) (fs : gmap text text)
  : gmap text text :=
  fold_left (fun m pc => <[fst pc := snd pc]> m) ws fs.

Definition header_unreadable (e : Env) (w : World) : Prop :=
  headerPath e ∈ locked w \/ files w !! headerPath e = None.

Definition header_is (e : Env) (w : World) (h : text) : Prop :=
  (headerPath e ∉ locked w) /\ files w !! headerPath e = Some h.

(** The calls of one run. *)
Definition new_calls (e : Env) (w : World) : list call :=
  skipn (length (calls w)) (calls (snd (run e w))).

Definition writes (cs : list call) : list (text * text) :=
  flat_map (fun c => match c with
                     | CallWrite p content => [(p, content)]
                     | CallMkdir _ | CallRead _ => []
                     end) cs.

(** ** Sample inputs *)

(** [path.resolve] on segments that need no normalising: the last absolute
    segment and the ones after it, joined by slashes. *)
Fixpoint resolve_plain (acc : text) (parts : list text) : text :=
  match parts with
  | [] => acc
  | p :: rest =>
      resolve_plain (if starts_with (js "/") p then p else acc ++ js "/" ++ p)
                    rest
  end.

(** The call of the build script: the output directory and the include
    directory of the qpdf submodule. *)
Definition sample_env : Env :=
  mkEnv (resolve_plain (js "/repo")) (js "/repo/build") (js "/repo")
        [js "/repo/build"; js "--qpdf-include"; js "/repo/lib/qpdf/include/qpdf"].

Definition sample_header : text :=
  js "/* setup */" ++ nl ++
  js "QPDF_DLL" ++ nl ++
  js "unsigned long qpdf_foo(void); // QPDF_DLL int qpdf_hidden(void);" ++ nl ++
  js "QPDF_DLL int qpdf_foo(int);" ++ nl.

(** A checkout with the header, and one without. *)
Definition sample_world : World :=
  mkWorld {[ headerPath sample_env := sample_header ]} ∅ ∅ [] [] [].

Definition bare_world : World := mkWorld ∅ ∅ ∅ [] [] [].

(** A checkout with four manifests of an earlier build, the second of
    which cannot be written. *)
Definition stale : text := js "[]".

Definition half_locked_world : World :=
  mkWorld
    (<[ artifactPath sample_env "exported-functions.txt" := stale ]>
     (<[ artifactPath sample_env "exported-runtime-methods.txt" := stale ]>
      (<[ artifactPath sample_env "exported-incoming-methods.txt" := stale ]>
       (<[ artifactPath sample_env "runtime-methods.ts" := stale ]>
        {[ headerPath sample_env := sample_header ]}))))
    ∅ {[ artifactPath sample_env "exported-runtime-methods.txt" ]} [] [] [].

(** Another machine: other directories, the same header. *)
Definition other_env : Env :=
  mkEnv (resolve_plain (js "/home/ci")) (js "/home/ci/build") (js "/home/ci")
        [js "/tmp/out"; js "--qpdf-include"; js "/usr/include/qpdf"].

Definition other_world : World :=
  mkWorld {[ headerPath other_env := sample_header ]}
          {[ js "/tmp/out" ]} ∅ [js "earlier output"] [] [].

(** * Further vocabulary *)

(** ** The command line *)

(** The flag of the command line and the directory used without it. *)
Definition includeFlag : text := js "--qpdf-include".

Definition defaultIncludeDir (e : Env) : text :=
  resolve e [selfDir e; js "../../qpdf/include/qpdf"].

(** The four paths the script writes, in the order of the writes. *)
Definition artifactPaths (e : Env) : list text :=
  [ artifactPath e "exported-functions.txt";
    artifactPath e "exported-runtime-methods.txt";
    artifactPath e "exported-incoming-methods.txt";
    artifactPath e "runtime-methods.ts" ].

(** The content of the last write to [p] among [ws], if there is one. *)
Fixpoint last_write (p : text) (ws : list (text * text)) : option text :=
  match ws with
  | [] => None
  | (q, c) :: rest =>
      match last_write p rest with
      | Some c' => Some c'
      | None => if decide (q = p) then Some c else None
      end
  end.

(** ** Markers and parentheses *)

(** Two slashes in a row somewhere in [s]. *)
Fixpoint has_line_marker (s : text) : bool :=
  match s with
  | [] => false
  | c :: s' =>
      ((c =? 47) && match s' with d :: _ => d =? 47 | [] => false end) ||
      has_line_marker s'
  end.

(** The number of opening parentheses in [s]. *)
Definition open_parens (s : text) : nat :=
  length (List.filter (fun c => c =? 40) s).

(** ** The standard output *)

(** The lines one run adds to the standard output. *)
Definition new_stdout (e : Env) (w : World) : list text :=
  skipn (length (stdout w)) (stdout (snd (run e w))).

(** The last line of a run that wrote everything; it starts with U+2705. *)
Definition successLine (e : Env) : text :=
  [9989] ++ js " Generated WASM export configs in " ++ outDir e.

(** ** More sample inputs *)

(** The flag as the last argument, the flag as the first argument, and a
    checkout whose output directory cannot be made. *)
Definition flag_last_env : Env :=
  mkEnv (resolve_plain (js "/repo")) (js "/repo/build") (js "/repo")
        [js "/repo/build"; js "--qpdf-include"].

Definition flag_first_env : Env :=
  mkEnv (resolve_plain (js "/repo")) (js "/repo/build") (js "/repo")
        [js "--qpdf-include"; js "/repo/lib/qpdf/include/qpdf"].


(** * Worked inputs *)

(** A declared function, a commented one, one manual name and an exclusion
    list that does not apply: the manual name, then the declared one. *)
Example declared_and_commented :
  assemble [js "alloc"] [js "qpdf_internal"]
    (foundFunctions
       (js "QPDF_DLL int qpdf_init(void); /* QPDF_DLL int qpdf_hidden(void); */")) =
  [js "alloc"; js "qpdf_init"].
Proof. vm_compute. reflexivity. Qed.

(** A header without a marked declaration: the manual list alone. *)
Example nothing_declared :
  exportedFunctions (foundFunctions (js "int qpdf_init(void);")) =
  manualCFunctions.
Proof. vm_compute. reflexivity. Qed.

(** The two helpers with C++ linkage are discovered and left out. *)
Example helpers_left_out :
  let header := js "QPDF_DLL int qpdf_c_wrap(void); QPDF_DLL int qpdf_more(void);" in
  foundFunctions header = [js "qpdf_c_wrap"; js "qpdf_more"] /\
  exportedFunctions (foundFunctions header) = manualCFunctions ++ [js "qpdf_more"].
Proof. vm_compute. split; reflexivity. Qed.

(** The pattern wants white space before the identifier: a star that
    touches it hides the declaration. *)
Example star_touching_identifier :
  foundFunctions (js "QPDF_DLL char const* qpdf_get(void);") = [js "qpdf_get"] /\
  foundFunctions (js "QPDF_DLL char const *qpdf_get(void);") = [].
Proof. vm_compute. split; reflexivity. Qed.

(** The run of the build script on the sample checkout. *)
Example sample_run :
  let w' := snd (run sample_env sample_world) in
  fst (run sample_env sample_world) = 0 /\
  foundFunctions sample_header = [js "qpdf_foo"; js "qpdf_foo"] /\
  dirs w' = {[ js "/repo/build" ]} /\
  stderr w' = [] /\
  List.map fst (writes (new_calls sample_env sample_world)) =
    [ js "/repo/build/exported-functions.txt";
      js "/repo/build/exported-runtime-methods.txt";
      js "/repo/build/exported-incoming-methods.txt";
      js "/repo/build/runtime-methods.ts" ] /\
  files w' !! js "/repo/build/exported-incoming-methods.txt" =
    Some (js "[" ++ dq ++ js "noInitialRun" ++ dq ++ js "," ++
          dq ++ js "noFSInit" ++ dq ++ js "," ++
          dq ++ js "locateFile" ++ dq ++ js "," ++
          dq ++ js "preRun" ++ dq ++ js "]").
Proof. vm_compute. repeat split. Qed.

(** * Strings and the manifest *)

Lemma text_eqb_eq a b : text_eqb a b = true <-> a = b.
Proof.
  revert b. induction a as [|x a IH]; intros [|y b]; simpl; try easy.
  rewrite andb_true_iff, N.eqb_eq, IH. split.
  - intros [-> ->]. reflexivity.
  - intros H. injection H as -> ->. auto.
Qed.

Lemma text_eqb_refl a : text_eqb a a = true.
Proof. apply text_eqb_eq. reflexivity. Qed.

Lemma starts_with_spec needle hay :
  starts_with needle hay = true <-> exists post, hay = needle ++ post.
Proof.
  revert hay. induction needle as [|x n IH]; intros hay; simpl.
  - split; eauto.
  - destruct hay as [|y hay].
    + split; [discriminate | intros [post H]; discriminate].
    + rewrite andb_true_iff, N.eqb_eq, IH. split.
      * intros [-> [post ->]]. eauto.
      * intros [post H]. injection H as -> ->. eauto.
Qed.

Lemma includes_spec hay needle :
  includes hay needle = true <-> contains needle hay.
Proof.
  unfold contains. induction hay as [|c hay IH].
  - simpl. rewrite orb_false_r, starts_with_spec. split.
    + intros [post H]. exists [], post. exact H.
    + intros [pre [post H]]. destruct pre; simpl in H.
      * eauto.
      * discriminate.
  - cbn [includes]. rewrite orb_true_iff, starts_with_spec, IH. split.
    + intros [[post H] | [pre [post H]]].
      * exists [], post. exact H.
      * exists (c :: pre), post. rewrite H. reflexivity.
    + intros [pre [post H]]. destruct pre as [|x pre]; simpl in H.
      * left. eauto.
      * right. injection H as -> ->. eauto.
Qed.

Lemma arr_includes_spec arr f : arr_includes arr f = true <-> In f arr.
Proof.
  unfold arr_includes. rewrite existsb_exists. split.
  - intros [x [Hx He]]. apply text_eqb_eq in He. subst. exact Hx.
  - intros H. exists f. split; [exact H | apply text_eqb_refl].
Qed.

Lemma kept_spec exclude f :
  keeps exclude f = true <->
  ~ contains (js "_reserved") f /\ ~ In f exclude.
Proof.
  unfold keeps.
  rewrite andb_true_iff, !negb_true_iff, <- !not_true_iff_false.
  rewrite includes_spec, arr_includes_spec. reflexivity.
Qed.

Lemma dropped_spec exclude f :
  dropped exclude f = true <-> contains (js "_reserved") f \/ In f exclude.
Proof.
  unfold dropped. rewrite negb_true_iff, <- not_true_iff_false, kept_spec.
  split; [|tauto]. intros H.
  destruct (includes f (js "_reserved")) eqn:Hi.
  - left. apply includes_spec, Hi.
  - destruct (arr_includes exclude f) eqn:Ha.
    + right. apply arr_includes_spec, Ha.
    + exfalso. apply H. rewrite <- includes_spec, <- arr_includes_spec.
      rewrite Hi, Ha. split; discriminate.
Qed.

Lemma assemble_suffix manual exclude found :
  skipn (length manual) (assemble manual exclude found) =
  List.filter (keeps exclude) found.
Proof. unfold assemble. apply drop_app_length. Qed.

Lemma assemble_prefix manual exclude found :
  firstn (length manual) (assemble manual exclude found) = manual.
Proof. unfold assemble. apply take_app_length. Qed.

Lemma filter_sublist {A} (p : A -> bool) (l : list A) :
  sublist (List.filter p l) l.
Proof.
  induction l as [|x l IH]; simpl.
  - constructor.
  - destruct (p x); constructor; exact IH.
Qed.

Lemma manual_never_dropped :
  forallb (keeps cppHelpers) manualCFunctions = true.
Proof. vm_compute. reflexivity. Qed.


Lemma occurrences_filter f p l :
  occurrences f (List.filter p l) = if p f then occurrences f l else 0%nat.
Proof.
  unfold occurrences. induction l as [|x l IH]; simpl.
  - destruct (p f); reflexivity.
  - destruct (p x) eqn:Hp; simpl.
    + destruct (text_eqb f x) eqn:He; simpl; rewrite IH.
      * apply text_eqb_eq in He. subst. rewrite Hp. reflexivity.
      * reflexivity.
    + destruct (text_eqb f x) eqn:He; simpl; rewrite IH.
      * apply text_eqb_eq in He. subst. rewrite Hp. reflexivity.
      * reflexivity.
Qed.


(** * The scans *)


Lemma exec_skip r n s :
  exec_all r n s = exec_all r 0 (skipn n s).
Proof.
  revert n. induction s as [|c s IH]; intros [|n]; try reflexivity.
  cbn [exec_all skipn]. apply IH.
Qed.


Lemma replace_nomatch r c s :
  match_at r (c :: s) = None ->
  replace_empty r 0 (c :: s) = c :: replace_empty r 0 s.
Proof. intros H. cbn [replace_empty]. rewrite H. reflexivity. Qed.

Lemma exec_match r c s n g :
  match_at r (c :: s) = Some (S n, g) ->
  exec_all r 0 (c :: s) = g :: exec_all r 0 (skipn n s).
Proof.
  intros H. cbn [exec_all]. rewrite H. f_equal. apply exec_skip.
Qed.

Lemma exec_nomatch r c s :
  match_at r (c :: s) = None ->
  exec_all r 0 (c :: s) = exec_all r 0 s.
Proof. intros H. cbn [exec_all]. rewrite H. reflexivity. Qed.

(** ** The state of a match *)

Lemma consumed_advance_all st run :
  consumed (advance_all st run) = (consumed st + length run)%nat.
Proof.
  revert st. induction run as [|c run IH]; intros st; cbn [advance_all length].
  - lia.
  - rewrite IH. cbn. lia.
Qed.

Lemma capturing_advance_all st run :
  capturing (advance_all st run) = capturing st.
Proof.
  revert st. induction run as [|c run IH]; intros st; cbn [advance_all].
  - reflexivity.
  - rewrite IH. reflexivity.
Qed.

Lemma group1_advance_all st run :
  group1 (advance_all st run) =
  if capturing st then group1 st ++ run else group1 st.
Proof.
  revert st. induction run as [|c run IH]; intros st; cbn [advance_all].
  - destruct (capturing st); [rewrite app_nil_r|]; reflexivity.
  - rewrite IH. cbn.
    destruct (capturing st); [rewrite <- app_assoc|]; reflexivity.
Qed.

Lemma advance_all_app st a b :
  advance_all st (a ++ b) = advance_all (advance_all st a) b.
Proof.
  revert st. induction a as [|c a IH]; intros st; cbn [advance_all app].
  - reflexivity.
  - apply IH.
Qed.

(** ** The matcher and what a pattern denotes *)

Lemma repeat_class_sound lazy p k s st st' :
  repeat_class lazy p k s st = Some st' ->
  exists run s', s = run ++ s' /\ forallb p run = true /\
                 k s' (advance_all st run) = Some st'.
Proof.
  revert st. induction s as [|c s IH]; intros st; cbn [repeat_class].
  - intros H. exists [], []. auto.
  - destruct (p c) eqn:Hp.
    + assert (Hrec : repeat_class lazy p k s (advance st c) = Some st' ->
                     exists run s', c :: s = run ++ s' /\ forallb p run = true /\
                                    k s' (advance_all st run) = Some st').
      { intros H. apply IH in H as [run [s' [-> [Hr Hk]]]].
        exists (c :: run), s'. cbn [forallb advance_all]. rewrite Hp. auto. }
      assert (Hstop : k (c :: s) st = Some st' ->
                      exists run s', c :: s = run ++ s' /\ forallb p run = true /\
                                     k s' (advance_all st run) = Some st').
      { intros H. exists [], (c :: s). auto. }
      destruct lazy.
      * destruct (k (c :: s) st) eqn:Hk.
        -- intros [= <-]. apply Hstop. reflexivity.
        -- exact Hrec.
      * destruct (repeat_class false p k s (advance st c)) eqn:Hr.
        -- intros [= <-]. apply Hrec. reflexivity.
        -- exact Hstop.
    + intros H. exists [], (c :: s). auto.
Qed.

Lemma repeat_class_complete lazy p k run s' st :
  forallb p run = true ->
  k s' (advance_all st run) <> None ->
  repeat_class lazy p k (run ++ s') st <> None.
Proof.
  revert st. induction run as [|c run IH]; intros st Hr Hk.
  - cbn [app advance_all] in *. destruct s' as [|c s]; cbn [repeat_class].
    + exact Hk.
    + destruct (p c); [|exact Hk]. destruct lazy.
      * destruct (k (c :: s) st); [discriminate|contradiction].
      * destruct (repeat_class false p k s (advance st c)); [discriminate|exact Hk].
  - cbn [app advance_all forallb repeat_class] in *.
    apply andb_true_iff in Hr as [Hc Hr]. rewrite Hc.
    specialize (IH (advance st c) Hr Hk). destruct lazy.
    + destruct (k (c :: run ++ s') st); [discriminate|exact IH].
    + destruct (repeat_class false p k (run ++ s') (advance st c));
        [discriminate|contradiction].
Qed.

Lemma match_from_sound r s st st' :
  match_from r s st = Some st' -> denotes r s st st'.
Proof.
  revert s st. induction r as [|n r IH]; intros s st; cbn [match_from denotes].
  - intros [= <-]. reflexivity.
  - destruct n.
    + destruct s as [|x s]; [discriminate|].
      destruct (N.eqb_spec x c) as [->|]; [|discriminate].
      intros H. exists s. auto.
    + intros H. apply repeat_class_sound in H as [run [s' [-> [Hr H]]]].
      exists run, s'. auto.
    + intros H. apply repeat_class_sound in H as [run [s' [-> [Hr H]]]].
      exists run, s'. auto.
    + destruct s as [|x s]; [discriminate|].
      destruct (in_class p x) eqn:Hx; [|discriminate].
      intros H. apply repeat_class_sound in H as [run [s' [-> [Hr H]]]].
      exists (x :: run), s'. cbn [forallb advance_all]. rewrite Hx.
      repeat split; try discriminate; auto.
    + destruct (at_line_end s); [|discriminate]. auto.
    + auto.
    + auto.
Qed.

Lemma match_from_complete r s st st' :
  denotes r s st st' -> match_from r s st <> None.
Proof.
  revert s st. induction r as [|n r IH]; intros s st; cbn [match_from denotes].
  - discriminate.
  - destruct n.
    + intros [s' [-> H]]. rewrite N.eqb_refl. eapply IH, H.
    + intros [run [s' [-> [Hr H]]]]. apply repeat_class_complete; eauto.
    + intros [run [s' [-> [Hr H]]]]. apply repeat_class_complete; eauto.
    + intros [run [s' [-> [Hne [Hr H]]]]].
      destruct run as [|x run]; [contradiction|].
      cbn [app forallb advance_all] in *.
      apply andb_true_iff in Hr as [Hx Hr]. rewrite Hx.
      apply repeat_class_complete; eauto.
    + intros [-> H]. eauto.
    + eauto.
    + eauto.
Qed.

(** * Comments *)

(** ** The block-comment pattern *)

Lemma any_char c : in_class (CUnion CSpace CNonSpace) c = true.
Proof. simpl. destruct (is_space c); reflexivity. Qed.

Lemma lazy_close s st :
  repeat_class true (in_class (CUnion CSpace CNonSpace))
               (match_from [Chr 42; Chr 47]) s st =
  match find_close s with
  | Some k => Some (advance_all st (firstn (k + 2) s))
  | None => None
  end.
Proof.
  revert st. induction s as [|c s IH]; intros st.
  - reflexivity.
  - cbn [repeat_class find_close]. rewrite any_char.
    cbn [match_from].
    destruct (c =? 42) eqn:Hc; cbn [andb].
    + destruct s as [|d s].
      * reflexivity.
      * destruct (d =? 47) eqn:Hd.
        -- reflexivity.
        -- rewrite IH. destruct (find_close (d :: s)); reflexivity.
    + rewrite IH. destruct (find_close s); reflexivity.
Qed.

Lemma find_close_bound s k : find_close s = Some k -> (k + 2 <= length s)%nat.
Proof.
  revert k. induction s as [|c s IH]; intros k; cbn [find_close length].
  - discriminate.
  - destruct ((c =? 42) && _) eqn:Hc.
    + intros [= <-]. destruct s; [|cbn; lia].
      rewrite andb_false_r in Hc. discriminate.
    + destruct (find_close s) as [j|]; [|discriminate].
      intros [= <-]. specialize (IH j eq_refl). lia.
Qed.

Lemma chr_mismatch (x c : N) r s st :
  (c =? x) = false -> match_from (Chr x :: r) (c :: s) st = None.
Proof. intros H. cbn [match_from]. rewrite H. reflexivity. Qed.

Lemma block_match s :
  match_at blockCommentRegex s =
  match s with
  | c :: d :: rest =>
      if (c =? 47) && (d =? 42) then
        match find_close rest with
        | Some k => Some (S (S (k + 2)), [])
        | None => None
        end
      else None
  | _ => None
  end.
Proof.
  unfold match_at, blockCommentRegex.
  destruct s as [|c s]; [reflexivity|].
  cbn [match_from]. destruct (c =? 47); [|destruct s; reflexivity].
  destruct s as [|d s]; [reflexivity|].
  destruct (d =? 42); [|reflexivity]. cbn [andb].
  rewrite lazy_close. destruct (find_close s) as [k|] eqn:Hk; [|reflexivity].
  rewrite consumed_advance_all, group1_advance_all. cbn.
  rewrite length_take, Nat.min_l by (apply find_close_bound; exact Hk).
  reflexivity.
Qed.

(** ** The line-comment pattern *)

Lemma greedy_line s st :
  repeat_class false (in_class CDot) (match_from [Eol]) s st =
  Some (advance_all st (firstn (line_length s) s)).
Proof.
  revert st. induction s as [|c s IH]; intros st.
  - reflexivity.
  - cbn [repeat_class line_length in_class].
    destruct (is_line_terminator c) eqn:Hc; cbn [negb].
    + cbn [match_from at_line_end]. rewrite Hc. reflexivity.
    + rewrite IH. reflexivity.
Qed.

Lemma line_length_bound s : (line_length s <= length s)%nat.
Proof.
  induction s as [|c s IH]; cbn [line_length length]; [lia|].
  destruct (is_line_terminator c); lia.
Qed.

Lemma line_match s :
  match_at lineCommentRegex s =
  match s with
  | c :: d :: rest =>
      if (c =? 47) && (d =? 47) then Some (S (S (line_length rest)), [])
      else None
  | _ => None
  end.
Proof.
  unfold match_at, lineCommentRegex.
  destruct s as [|c s]; [reflexivity|].
  cbn [match_from]. destruct (c =? 47); [|destruct s; reflexivity].
  destruct s as [|d s]; [reflexivity|].
  destruct (d =? 47); [|reflexivity]. cbn [andb].
  rewrite greedy_line.
  rewrite consumed_advance_all, group1_advance_all. cbn.
  rewrite length_take, Nat.min_l by apply line_length_bound.
  reflexivity.
Qed.

Lemma slash_not_terminator c : (c =? 47) = true -> is_line_terminator c = false.
Proof. intros H. apply N.eqb_eq in H. subst. reflexivity. Qed.

(** The line-comment pass is the two-state scanner. *)
Lemma strip_line_scan s :
  replace_empty lineCommentRegex (line_length s) s = scan_lines true s /\
  replace_empty lineCommentRegex 0 s = scan_lines false s.
Proof.
  induction s as [|c s [IHin IHout]].
  - split; reflexivity.
  - assert (Hout : replace_empty lineCommentRegex 0 (c :: s) =
                   scan_lines false (c :: s)).
    { cbn [replace_empty scan_lines]. rewrite line_match.
      destruct s as [|d s].
      - rewrite andb_false_r. reflexivity.
      - destruct ((c =? 47) && (d =? 47)) eqn:Hcd.
        + apply andb_true_iff in Hcd as [_ Hd].
          rewrite <- IHin. cbn [line_length].
          rewrite (slash_not_terminator d Hd). reflexivity.
        + rewrite IHout. reflexivity. }
    split; [|exact Hout].
    cbn [line_length scan_lines].
    destruct (is_line_terminator c) eqn:Hc.
    + rewrite Hout. cbn [scan_lines].
      destruct ((c =? 47) && _) eqn:Hcd.
      * apply andb_true_iff in Hcd as [Hc' _].
        rewrite (slash_not_terminator c Hc') in Hc. discriminate.
      * reflexivity.
    + cbn [replace_empty]. exact IHin.
Qed.

Lemma stripLineComments_scan s : stripLineComments s = scan_lines false s.
Proof. apply strip_line_scan. Qed.

(** ** Block comments between pieces of code *)










Lemma strip_block_line_end post :
  at_line_end post = true -> at_line_end (stripBlockComments post) = true.
Proof.
  destruct post as [|c post]; [reflexivity|].
  cbn [at_line_end]. intros Hc. unfold stripBlockComments.
  rewrite replace_nomatch; [exact Hc|].
  rewrite block_match. destruct post as [|d post]; [reflexivity|].
  destruct (N.eqb_spec c 47) as [->|]; [discriminate|reflexivity].
Qed.



(** * Declarations *)

Lemma nonempty_spec s : nonempty s = true <-> s <> [].
Proof. destruct s; simpl; split; congruence. Qed.

Lemma func_match_shape s n g :
  match_at funcRegex s = Some (n, g) ->
  exists ws1 rtype ws2 name ws3 rest,
    well_shaped ws1 rtype ws2 name ws3 = true /\
    s = declaration ws1 rtype ws2 name ws3 ++ rest /\
    n = length (declaration ws1 rtype ws2 name ws3) /\
    g = js "qpdf_" ++ name.
Proof.
  unfold match_at. destruct (match_from funcRegex s mstart) as [st|] eqn:H; [|discriminate].
  intros [= <- <-]. apply match_from_sound in H.
  let r := eval vm_compute in funcRegex in change funcRegex with r in H.
  cbn [denotes] in H.
  repeat match goal with
         | H : exists _, _ |- _ => destruct H as [? H]
         | H : _ /\ _ |- _ => destruct H as [? H]
         end.
  subst.
  match goal with
  | |- context [_ ++ _ ++ _ ++ 113 :: 112 :: 100 :: 102 :: 95 :: ?w ++ ?d ++ 40 :: ?rest] =>
      match goal with
      | |- context [81 :: 80 :: 68 :: 70 :: 95 :: 68 :: 76 :: 76 :: ?a ++ ?b ++ ?c ++ _] =>
          exists a, b, c, w, d, rest
      end
  end.
  split; [|split; [|split]].
  - unfold well_shaped. rewrite !andb_true_iff, !nonempty_spec. tauto.
  - unfold declaration. rewrite <- !app_assoc. reflexivity.
  - repeat (cbn [consumed advance group_open group_close mstart] ||
            rewrite consumed_advance_all).
    unfold declaration. rewrite !length_app. cbn [length js List.map list_ascii_of_string]. lia.
  - repeat (cbn [group1 capturing advance group_open group_close mstart app] ||
            rewrite group1_advance_all || rewrite capturing_advance_all).
    reflexivity.
Qed.

Lemma func_match_complete ws1 rtype ws2 name ws3 rest :
  well_shaped ws1 rtype ws2 name ws3 = true ->
  match_at funcRegex (declaration ws1 rtype ws2 name ws3 ++ rest) <> None.
Proof.
  unfold well_shaped. rewrite !andb_true_iff, !nonempty_spec.
  intros [[[[[[[[H1 H2] H3] H4] H5] H6] H7] H8] H9].
  unfold match_at.
  destruct (match_from funcRegex _ mstart) eqn:H; [discriminate|].
  exfalso. revert H. eapply match_from_complete.
  let r := eval vm_compute in funcRegex in change funcRegex with r.
  unfold declaration. rewrite <- !app_assoc.
  change (js "QPDF_DLL") with [81; 80; 68; 70; 95; 68; 76; 76].
  change (js "qpdf_") with [113; 112; 100; 102; 95].
  change (js "(") with [40].
  cbn [denotes app].
  repeat (eexists; split; [reflexivity|]).
  exists ws1. eexists. split; [reflexivity|]. split; [exact H1|]. split; [exact H2|].
  exists rtype. eexists. split; [reflexivity|]. split; [exact H3|]. split; [exact H4|].
  exists ws2. eexists. split; [reflexivity|]. split; [exact H5|]. split; [exact H6|].
  repeat (eexists; split; [reflexivity|]).
  exists name. eexists. split; [reflexivity|]. split; [exact H7|]. split; [exact H8|].
  exists ws3. eexists. split; [reflexivity|]. split; [exact H9|].
  eexists. split; reflexivity.
Qed.

(** ** Character classes *)

Ltac class_facts :=
  unfold is_type_char, not_paren, is_word, is_space, in_class in *;
  repeat match goal with
         | H : _ = true |- _ =>
             rewrite ?orb_true_iff, ?andb_true_iff, ?N.eqb_eq, ?N.leb_le in H
         end.

Lemma space_not_word c : is_space c = true -> is_word c = false.
Proof.
  intros H. destruct (is_word c) eqn:Hw; [|reflexivity].
  exfalso. class_facts. lia.
Qed.

Lemma word_not_space c : is_word c = true -> is_space c = false.
Proof.
  intros H. destruct (is_space c) eqn:Hs; [|reflexivity].
  apply space_not_word in Hs. congruence.
Qed.

Lemma space_not_paren c : is_space c = true -> not_paren c = true.
Proof.
  intros H. destruct (N.eqb_spec c 40) as [->|Hc].
  - discriminate.
  - unfold not_paren. apply negb_true_iff, N.eqb_neq, Hc.
Qed.

Lemma word_not_paren c : is_word c = true -> not_paren c = true.
Proof.
  intros H. destruct (N.eqb_spec c 40) as [->|Hc].
  - discriminate.
  - unfold not_paren. apply negb_true_iff, N.eqb_neq, Hc.
Qed.

Lemma type_char_not_paren c : is_type_char c = true -> not_paren c = true.
Proof.
  intros H. destruct (N.eqb_spec c 40) as [->|Hc].
  - discriminate.
  - unfold not_paren. apply negb_true_iff, N.eqb_neq, Hc.
Qed.

Create HintDb classes.
#[local] Hint Resolve space_not_word word_not_space space_not_paren
  word_not_paren type_char_not_paren : classes.

Lemma forallb_impl (p q : N -> bool) l :
  (forall c, p c = true -> q c = true) ->
  forallb p l = true -> forallb q l = true.
Proof.
  intros Hpq. rewrite !forallb_forall. auto.
Qed.

Lemma decl_body_no_paren ws1 rtype ws2 name ws3 :
  well_shaped ws1 rtype ws2 name ws3 = true ->
  forallb not_paren (decl_body ws1 rtype ws2 name ws3) = true.
Proof.
  unfold well_shaped. rewrite !andb_true_iff.
  intros [[[[[[[[H1 H2] H3] H4] H5] H6] H7] H8] H9].
  unfold decl_body. rewrite !forallb_app.
  rewrite (forallb_impl _ _ _ space_not_paren H2).
  rewrite (forallb_impl _ _ _ type_char_not_paren H4).
  rewrite (forallb_impl _ _ _ space_not_paren H6).
  rewrite (forallb_impl _ _ _ word_not_paren H8).
  rewrite (forallb_impl _ _ _ space_not_paren H9).
  reflexivity.
Qed.

Lemma declaration_body ws1 rtype ws2 name ws3 :
  declaration ws1 rtype ws2 name ws3 = decl_body ws1 rtype ws2 name ws3 ++ [40].
Proof. unfold declaration, decl_body. rewrite <- !app_assoc. reflexivity. Qed.

(** The first character outside a class ends the run of the class. *)
Lemma span_unique (p : N -> bool) l1 l2 x y r1 r2 :
  forallb p l1 = true -> forallb p l2 = true ->
  p x = false -> p y = false ->
  l1 ++ x :: r1 = l2 ++ y :: r2 ->
  l1 = l2 /\ x = y /\ r1 = r2.
Proof.
  revert l2. induction l1 as [|a l1 IH]; intros [|b l2]; cbn [forallb app].
  - intros _ _ _ _ [= -> ->]. auto.
  - intros _ Hb Hx _ [= -> _]. apply andb_true_iff in Hb as [Hb _]. congruence.
  - intros Ha _ _ Hy [= -> _]. apply andb_true_iff in Ha as [Ha _]. congruence.
  - intros Ha Hb Hx Hy [= -> H].
    apply andb_true_iff in Ha as [_ Ha]. apply andb_true_iff in Hb as [_ Hb].
    destruct (IH l2 Ha Hb Hx Hy H) as [-> [-> ->]]. auto.
Qed.

(** The same from the right: the last character outside the class. *)
Lemma span_unique_right (p : N -> bool) l1 l2 x y r1 r2 :
  forallb p r1 = true -> forallb p r2 = true ->
  p x = false -> p y = false ->
  l1 ++ x :: r1 = l2 ++ y :: r2 ->
  l1 = l2 /\ x = y /\ r1 = r2.
Proof.
  intros H1 H2 Hx Hy H.
  apply (f_equal (@rev N)) in H.
  rewrite !rev_app_distr in H. cbn [rev] in H. rewrite <- !app_assoc in H.
  cbn [app] in H.
  apply span_unique with (p := p) in H; try assumption.
  - destruct H as [Hr [-> Hl]].
    apply (f_equal (@rev N)) in Hr, Hl. rewrite !rev_involutive in Hr, Hl. auto.
  - rewrite forallb_forall in *. intros c Hc. apply H1, in_rev, Hc.
  - rewrite forallb_forall in *. intros c Hc. apply H2, in_rev, Hc.
Qed.

Lemma split_last (s : text) : s <> [] -> exists s0 x, s = s0 ++ [x].
Proof.
  intros H. destruct (exists_last H) as [s0 [x ->]]. eauto.
Qed.

(** Two readings of the text before one parenthesis name the same
    identifier. *)
Lemma same_identifier pre a b c w d ws1 rtype ws2 name ws3 :
  well_shaped a b c w d = true ->
  well_shaped ws1 rtype ws2 name ws3 = true ->
  decl_body a b c w d = pre ++ decl_body ws1 rtype ws2 name ws3 ->
  w = name.
Proof.
  unfold well_shaped. rewrite !andb_true_iff, !nonempty_spec.
  intros [[[[[[[[A1 A2] A3] A4] A5] A6] A7] A8] A9].
  intros [[[[[[[[B1 B2] B3] B4] B5] B6] B7] B8] B9].
  unfold decl_body. intros H.
  destruct (split_last w A7) as [w0 [x ->]].
  destruct (split_last name B7) as [n0 [y ->]].
  destruct (split_last c A5) as [c0 [z ->]].
  destruct (split_last ws2 B5) as [v0 [z' ->]].
  rewrite forallb_app in A8, B8, A6, B6. cbn [forallb] in A8, B8, A6, B6.
  rewrite !andb_true_iff in A8, B8, A6, B6.
  destruct A8 as [A8 [Ax _]], B8 as [B8 [By _]].
  destruct A6 as [A6 [Az _]], B6 as [B6 [Bz _]].
  assert (H1 : (js "QPDF_DLL" ++ a ++ b ++ c0 ++ [z] ++ js "qpdf_" ++ w0) ++ x :: d =
               (pre ++ js "QPDF_DLL" ++ ws1 ++ rtype ++ v0 ++ [z'] ++ js "qpdf_" ++ n0) ++ y :: ws3).
  { rewrite <- !app_assoc in *. exact H. }
  apply span_unique_right with (p := is_space) in H1;
    auto with classes.
  destruct H1 as [H1 [-> ->]].
  assert (H2 : (js "QPDF_DLL" ++ a ++ b ++ c0) ++ z :: (js "qpdf_" ++ w0) =
               (pre ++ js "QPDF_DLL" ++ ws1 ++ rtype ++ v0) ++ z' :: (js "qpdf_" ++ n0)).
  { rewrite <- !app_assoc in *. exact H1. }
  apply span_unique_right with (p := is_word) in H2;
    auto with classes;
    try (rewrite forallb_app; cbn [js forallb]; first [rewrite A8 | rewrite B8]; reflexivity).
  destruct H2 as [_ [_ H2]]. apply app_inv_head in H2. subst. reflexivity.
Qed.

(** ** One declaration in the text *)

Section Declaration.

Context (ws1 rtype ws2 name ws3 : text).
Hypothesis shaped : well_shaped ws1 rtype ws2 name ws3 = true.

Let decl := declaration ws1 rtype ws2 name ws3.

(** A match that starts before the declaration either ends before it or
    ends at its parenthesis and captures its identifier. *)
Lemma match_before_declaration pre post n g :
  match_at funcRegex (pre ++ decl ++ post) = Some (n, g) ->
  (0 < n <= length pre)%nat \/
  (n = (length pre + length decl)%nat /\ g = js "qpdf_" ++ name).
Proof.
  subst decl. intros Hm.
  apply func_match_shape in Hm as (a & b & c & w & d & rest & Hw' & Hs & -> & ->).
  rewrite !declaration_body in *. rewrite <- !app_assoc in Hs. cbn [app] in Hs.
  pose proof (decl_body_no_paren _ _ _ _ _ shaped) as HB.
  pose proof (decl_body_no_paren _ _ _ _ _ Hw') as HB'.
  apply app_eq_app in Hs as [l [[Hp Hr] | [Hp Hr]]].
  - left. destruct l as [|x l].
    + cbn [app] in Hr. unfold decl_body in Hr. discriminate.
    + subst pre. rewrite !length_app. cbn [length]. lia.
  - right.
    assert (Hl : forallb not_paren l = true).
    { rewrite Hp, forallb_app in HB'. apply andb_true_iff in HB' as [_ HB']. exact HB'. }
    symmetry in Hr.
    apply span_unique with (p := not_paren) in Hr; try assumption; try reflexivity.
    destruct Hr as [-> [_ ->]].
    split.
    + rewrite Hp, !length_app. cbn [length]. lia.
    + f_equal. eapply same_identifier; eauto.
Qed.

(** A match attempt at the start of the declaration succeeds, ends at its
    parenthesis and captures its identifier. *)
Lemma match_declaration post :
  match_at funcRegex (decl ++ post) = Some (length decl, js "qpdf_" ++ name).
Proof.
  destruct (match_at funcRegex (decl ++ post)) as [[n g]|] eqn:Hm.
  - destruct (match_before_declaration [] post n g Hm) as [[H1 H2] | [-> ->]].
    + cbn [length] in H2. lia.
    + reflexivity.
  - exfalso. revert Hm. apply func_match_complete, shaped.
Qed.

(** The scan reaches the declaration: whatever precedes it, its identifier
    is captured, and the scan resumes behind its parenthesis. *)
Lemma scan_declaration pre post :
  exists l,
    exec_all funcRegex 0 (pre ++ decl ++ post) =
    l ++ (js "qpdf_" ++ name) :: exec_all funcRegex 0 post.
Proof.
  remember (length pre) as m eqn:Hm. revert pre Hm.
  induction m as [m IH] using lt_wf_ind. intros pre Hm.
  assert (Hd : exists drest, decl = 81 :: drest) by (eexists; reflexivity).
  destruct Hd as [drest Hd].
  destruct (match_at funcRegex (pre ++ decl ++ post)) as [[n g]|] eqn:Hmatch.
  - destruct (match_before_declaration _ _ _ _ Hmatch) as [[Hn1 Hn2] | [Hn Hg]].
    + destruct n as [|n]; [lia|]. destruct pre as [|c pre]; [cbn in Hn2; lia|].
      cbn [app] in *. rewrite (exec_match _ _ _ _ _ Hmatch).
      cbn [length] in Hn2.
      rewrite skipn_app. replace (n - length pre)%nat with 0%nat by lia.
      rewrite drop_0.
      destruct (IH (length (skipn n pre))) with (pre := skipn n pre) as [l Hl].
      * rewrite length_skipn. subst m. cbn [length]. lia.
      * reflexivity.
      * exists (g :: l). rewrite Hl. reflexivity.
    + exists []. cbn [app]. subst g.
      destruct (pre ++ decl ++ post) as [|c s] eqn:Hs.
      { rewrite Hd in Hs. destruct pre; discriminate. }
      destruct n as [|n]; [rewrite Hd in Hn; cbn in Hn; lia|].
      rewrite (exec_match _ _ _ _ _ Hmatch). f_equal. f_equal.
      change (skipn n s) with (skipn (S n) (c :: s)). rewrite <- Hs, Hn.
      rewrite app_assoc, <- length_app. apply drop_app_length.
  - destruct pre as [|c pre].
    + cbn [app] in Hmatch. rewrite match_declaration in Hmatch. discriminate.
    + cbn [app] in *. rewrite (exec_nomatch _ _ _ Hmatch).
      apply (IH (length pre)); [subst m; cbn; lia | reflexivity].
Qed.

End Declaration.

(** No match of the declaration pattern is empty, so the loop around
    [exec] moves on. *)
Lemma func_match_nonempty s n g :
  match_at funcRegex s = Some (n, g) -> (0 < n)%nat.
Proof.
  intros H.
  apply func_match_shape in H as (a & b & c & w & d & rest & _ & _ & -> & _).
  rewrite declaration_body, length_app. cbn [length]. lia.
Qed.

(** * The artifacts read back *)

Lemma quoted_outside a rest :
  no_quote a = true ->
  quoted_from false [] (a ++ rest) = quoted_from false [] rest.
Proof.
  unfold no_quote. induction a as [|c a IH]; cbn [forallb app quoted_from].
  - reflexivity.
  - intros H. apply andb_true_iff in H as [Hc Ha].
    apply negb_true_iff in Hc. rewrite Hc. apply IH, Ha.
Qed.

Lemma quoted_inside cur f rest :
  no_quote f = true ->
  quoted_from true cur (f ++ dq ++ rest) = (cur ++ f) :: quoted_from false [] rest.
Proof.
  unfold no_quote. revert cur. induction f as [|c f IH]; intros cur;
    cbn [forallb app quoted_from].
  - intros _. rewrite app_nil_r. reflexivity.
  - intros H. apply andb_true_iff in H as [Hc Hf].
    apply negb_true_iff in Hc. rewrite Hc, IH by exact Hf.
    rewrite <- app_assoc. reflexivity.
Qed.

Lemma quoted_item pre f rest :
  no_quote pre = true -> no_quote f = true ->
  quoted_from false [] (pre ++ dq ++ f ++ dq ++ rest) =
  f :: quoted_from false [] rest.
Proof.
  intros Hp Hf. rewrite quoted_outside by exact Hp.
  cbn [dq app quoted_from N.eqb Pos.eqb].
  apply (quoted_inside [] f rest Hf).
Qed.

Lemma join_cons sep x y rest :
  join sep (x :: y :: rest) = x ++ sep ++ join sep (y :: rest).
Proof. reflexivity. Qed.

Lemma quoted_join sep pre (g : text -> text) items rest :
  no_quote sep = true -> no_quote pre = true ->
  forallb (fun f => no_quote (g f)) items = true ->
  quoted_from false [] (join sep (List.map (fun f => pre ++ dq ++ g f ++ dq) items) ++ rest) =
  List.map g items ++ quoted_from false [] rest.
Proof.
  intros Hs Hp. induction items as [|f items IH]; intros H.
  - reflexivity.
  - cbn [forallb] in H. apply andb_true_iff in H as [Hf Hi].
    specialize (IH Hi). destruct items as [|f' items].
    + cbn [join List.map app]. rewrite <- !app_assoc.
      rewrite quoted_item by assumption. reflexivity.
    + change (List.map (fun f => pre ++ dq ++ g f ++ dq) (f :: f' :: items))
        with ((pre ++ dq ++ g f ++ dq) ::
              List.map (fun f => pre ++ dq ++ g f ++ dq) (f' :: items)).
      change (List.map (fun f => pre ++ dq ++ g f ++ dq) (f' :: items))
        with ((pre ++ dq ++ g f' ++ dq) ::
              List.map (fun f => pre ++ dq ++ g f ++ dq) items) at 1.
      rewrite join_cons. rewrite <- !app_assoc.
      rewrite quoted_item by assumption.
      rewrite quoted_outside by exact Hs.
      cbn [List.map app] in *. f_equal. exact IH.
Qed.

Lemma quoted_functionsContent exported :
  forallb no_quote exported = true ->
  quoted_strings (functionsContent exported) = List.map (app (js "_")) exported.
Proof.
  intros H. unfold quoted_strings, functionsContent.
  rewrite quoted_outside by reflexivity.
  replace (List.map (fun f => dq ++ js "_" ++ f ++ dq) exported)
    with (List.map (fun f => [] ++ dq ++ app (js "_") f ++ dq) exported)
    by (apply map_ext; intros f; rewrite <- app_assoc; reflexivity).
  rewrite (quoted_join (js ",") [] (app (js "_")) exported (js "]")).
  - cbn. apply app_nil_r.
  - reflexivity.
  - reflexivity.
  - apply forallb_forall. intros f Hf. rewrite forallb_forall in H.
    unfold no_quote. cbn [app js List.map list_ascii_of_string forallb].
    apply (H f Hf).
Qed.

Lemma quoted_tsArray name items :
  no_quote name = true -> forallb no_quote items = true ->
  quoted_strings (tsArray name items) = items.
Proof.
  intros Hn H. unfold quoted_strings, tsArray.
  rewrite quoted_outside by reflexivity.
  rewrite quoted_outside by exact Hn.
  rewrite quoted_outside by reflexivity.
  rewrite quoted_outside by reflexivity.
  rewrite (quoted_join (js "," ++ nl) (js "  ") (fun f => f) items).
  - rewrite map_id. cbn. apply app_nil_r.
  - reflexivity.
  - reflexivity.
  - exact H.
Qed.

(** Every capture of the loop is the group of a match. *)
Lemma exec_all_captures r k s g :
  In g (exec_all r k s) -> exists s' n, match_at r s' = Some (n, g).
Proof.
  revert k. induction s as [|c s IH]; intros k; cbn [exec_all].
  - intros [].
  - destruct k as [|k]; [|apply IH].
    destruct (match_at r (c :: s)) as [[[|n] g']|] eqn:Hm; try apply IH.
    intros [<- | H]; [eauto | eapply IH, H].
Qed.

Lemma word_no_quote w : forallb is_word w = true -> no_quote w = true.
Proof.
  apply forallb_impl. intros c H. destruct (N.eqb_spec c 34) as [->|]; [discriminate|reflexivity].
Qed.

Lemma found_no_quote h : forallb no_quote (foundFunctions h) = true.
Proof.
  apply forallb_forall. intros g Hg.
  apply exec_all_captures in Hg as (s' & n & Hm).
  apply func_match_shape in Hm as (a & b & c & w & d & rest & Hw & _ & _ & ->).
  unfold well_shaped in Hw. rewrite !andb_true_iff in Hw.
  destruct Hw as [[_ Hw] _].
  unfold no_quote. rewrite forallb_app. apply andb_true_iff. split; [reflexivity|].
  apply word_no_quote, Hw.
Qed.

Lemma exported_no_quote h :
  forallb no_quote (exportedFunctions (foundFunctions h)) = true.
Proof.
  unfold exportedFunctions, assemble. rewrite forallb_app.
  apply andb_true_iff. split; [reflexivity|].
  apply forallb_forall. intros f Hf. apply filter_In in Hf as [Hf _].
  pose proof (found_no_quote h) as H. rewrite forallb_forall in H. auto.
Qed.

(** * Runs *)

Ltac step_script :=
  cbv beta iota zeta delta
    [run generateExports readHeader bind try_catch console_log console_error
     process_exit mkdirSync readFileSync writeFileSync record_call exit_status];
  cbn [files dirs locked stdout stderr calls].

Ltac tidy_world := rewrite <- ?app_assoc; reflexivity.

Lemma run_mkdir_refused e w :
  outDir e ∈ locked w ->
  run e w =
    (1, mkWorld (files w) (dirs w) (locked w)
          (stdout w ++ [js "Output Directory: " ++ outDir e;
                        js "Include Directory: " ++ includeDir e])
          (stderr w) (calls w ++ [CallMkdir (outDir e)])).
Proof.
  intros H. step_script.
  rewrite decide_True by exact H. step_script. tidy_world.
Qed.

Lemma run_header_unreadable e w :
  outDir e ∉ locked w -> header_unreadable e w ->
  run e w =
    (1, mkWorld (files w) ({[outDir e]} ∪ dirs w) (locked w)
          (stdout w ++ [js "Output Directory: " ++ outDir e;
                        js "Include Directory: " ++ includeDir e;
                        js "Parsing header: " ++ headerPath e])
          (stderr w ++ readFailure (headerPath e))
          (calls w ++ [CallMkdir (outDir e); CallRead (headerPath e)])).
Proof.
  intros Hd Hh. step_script.
  rewrite decide_False by exact Hd. step_script.
  destruct Hh as [Hl | Hn].
  - rewrite decide_True by exact Hl. step_script. tidy_world.
  - destruct (decide (headerPath e ∈ locked w)); step_script.
    + tidy_world.
    + rewrite Hn. step_script. tidy_world.
Qed.

Lemma run_header_read e w h :
  outDir e ∉ locked w -> header_is e w h ->
  let ws := artifacts e h in
  let done := until_locked (locked w) ws in
  run e w =
    (if decide (length done = 4%nat) then 0 else 1,
     mkWorld (write_files done (files w)) ({[outDir e]} ∪ dirs w) (locked w)
          (stdout w ++ [js "Output Directory: " ++ outDir e;
                        js "Include Directory: " ++ includeDir e;
                        js "Parsing header: " ++ headerPath e] ++
                       summary (foundFunctions h) ++
                       (if decide (length done = 4%nat)
                        then [[9989] ++ js " Generated WASM export configs in " ++ outDir e]
                        else []))
          (stderr w)
          (calls w ++ [CallMkdir (outDir e); CallRead (headerPath e)] ++
             List.map (fun pc => CallWrite (fst pc) (snd pc)) (attempted (locked w) ws))).
Proof.
  intros Hd [Hl Hf] ws done. subst ws done. step_script.
  rewrite decide_False by exact Hd. step_script.
  rewrite decide_False by exact Hl. step_script. rewrite Hf.
  unfold attempted, artifacts, write_files, summary. cbn [nth until_locked].
  repeat
    (match goal with
     | |- context [decide (?p ∈ locked w)] => destruct (decide (p ∈ locked w))
     end; try contradiction;
     step_script; cbn [length firstn List.map fold_left fst snd until_locked];
     try (rewrite decide_False by discriminate; tidy_world)).
  rewrite decide_True by reflexivity. tidy_world.
Qed.

Lemma until_locked_prefix L ws : exists rest, ws = until_locked L ws ++ rest.
Proof.
  induction ws as [|[p c] ws [rest IH]]; cbn [until_locked].
  - exists []. reflexivity.
  - destruct (decide (p ∈ L)).
    + exists ((p, c) :: ws). reflexivity.
    + exists rest. cbn [app]. rewrite <- IH. reflexivity.
Qed.

Lemma until_locked_all L ws :
  length (until_locked L ws) = length ws -> until_locked L ws = ws.
Proof.
  intros H. destruct (until_locked_prefix L ws) as [rest Hr].
  assert (Hl : length rest = 0%nat).
  { apply (f_equal (@length _)) in Hr. rewrite length_app in Hr. lia. }
  destruct rest; [|discriminate]. rewrite app_nil_r in Hr. congruence.
Qed.

Lemma attempted_all L ws : until_locked L ws = ws -> attempted L ws = ws.
Proof.
  intros H. unfold attempted. rewrite H. apply firstn_all2. lia.
Qed.

Lemma writes_of_writes ws :
  writes (List.map (fun pc => CallWrite (fst pc) (snd pc)) ws) = ws.
Proof.
  induction ws as [|[p c] ws IH]; cbn [List.map writes flat_map fst snd app].
  - reflexivity.
  - f_equal. exact IH.
Qed.

Lemma write_files_other ws fs p :
  ~ In p (List.map fst ws) -> write_files ws fs !! p = fs !! p.
Proof.
  unfold write_files. revert fs.
  induction ws as [|[q c] ws IH]; intros fs Hp; cbn [fold_left fst snd].
  - reflexivity.
  - cbn [List.map fst In] in Hp. rewrite IH by tauto.
    apply lookup_insert_ne. tauto.
Qed.

Lemma new_calls_of e w cs :
  calls (snd (run e w)) = calls w ++ cs -> new_calls e w = cs.
Proof. intros H. unfold new_calls. rewrite H. apply drop_app_length. Qed.

Lemma header_cases e w :
  header_unreadable e w \/ exists h, header_is e w h.
Proof.
  unfold header_unreadable, header_is.
  destruct (decide (headerPath e ∈ locked w)); [tauto|].
  destruct (files w !! headerPath e) as [h|]; eauto.
Qed.

Lemma run_status_zero e w :
  fst (run e w) = 0 ->
  (outDir e ∉ locked w) /\
  exists h, header_is e w h /\
            until_locked (locked w) (artifacts e h) = artifacts e h.
Proof.
  intros H. destruct (decide (outDir e ∈ locked w)) as [Hd|Hd].
  { rewrite run_mkdir_refused in H by exact Hd. discriminate. }
  split; [exact Hd|].
  destruct (header_cases e w) as [Hu | [h Hh]].
  { rewrite run_header_unreadable in H by assumption. discriminate. }
  exists h. split; [exact Hh|].
  rewrite (run_header_read e w h Hd Hh) in H. cbn [fst] in H.
  destruct (decide (length (until_locked (locked w) (artifacts e h)) = 4%nat))
    as [Hl|Hl]; [|discriminate].
  apply until_locked_all. exact Hl.
Qed.

Lemma run_success e w h :
  header_is e w h -> fst (run e w) = 0 ->
  writes (new_calls e w) = artifacts e h.
Proof.
  intros Hh H. destruct (run_status_zero e w H) as [Hd [h' [Hh' Hall]]].
  assert (h' = h) as ->.
  { destruct Hh as [_ Hh], Hh' as [_ Hh']. congruence. }
  rewrite (new_calls_of e w
             ([CallMkdir (outDir e); CallRead (headerPath e)] ++
              List.map (fun pc => CallWrite (fst pc) (snd pc))
                       (attempted (locked w) (artifacts e h)))).
  - cbn [app writes flat_map]. rewrite attempted_all by exact Hall.
    apply writes_of_writes.
  - rewrite (run_header_read e w h Hd Hh). reflexivity.
Qed.

Lemma contains_suffix pre p : contains p (pre ++ p).
Proof. exists pre, []. rewrite app_nil_r. reflexivity. Qed.

(** * The properties of the script *)

(** A decidable fact about sample inputs, by evaluation. *)
Ltac by_decision :=
  match goal with
  | |- ?P => apply (bool_decide_unpack P); vm_compute; exact I
  end.

(** ** Writing the artifacts *)

(** C1, as the design document states it, fails: the script renders and
    writes one artifact after the other, so a refused write leaves the
    files before it new and the files after it old.  Here the second path
    is locked: the run ends with status 1, the export list is new and the
    three other manifests are the stale ones. *)
Lemma emission_half_done :
  let w' := snd (run sample_env half_locked_world) in
  fst (run sample_env half_locked_world) = 1 /\
  files w' !! artifactPath sample_env "exported-functions.txt" =
    Some (functionsContent (exportedFunctions (foundFunctions sample_header))) /\
  functionsContent (exportedFunctions (foundFunctions sample_header)) <> stale /\
  files w' !! artifactPath sample_env "exported-runtime-methods.txt" = Some stale /\
  files w' !! artifactPath sample_env "exported-incoming-methods.txt" = Some stale /\
  files w' !! artifactPath sample_env "runtime-methods.ts" = Some stale.
Proof. vm_compute. repeat split; discriminate. Qed.

(** C1, amended: once the header is read, the four artifacts are rendered
    and written in turn (export list, runtime methods, incoming methods,
    typed mirror).  The writes before the first refused one have taken
    place with the new content, every other file is as it was, the refused
    write is the last call, and the status is 0 exactly when all four
    writes took place. *)
Theorem emission_stops_at_first_refusal e w h :
  outDir e ∉ locked w -> header_is e w h ->
  let ws := artifacts e h in
  let done := until_locked (locked w) ws in
  files (snd (run e w)) = write_files done (files w) /\
  (forall p, ~ In p (List.map fst done) ->
             files (snd (run e w)) !! p = files w !! p) /\
  writes (new_calls e w) = attempted (locked w) ws /\
  (exists rest, ws = done ++ rest) /\
  (fst (run e w) = 0 <-> done = ws).
Proof.
  intros Hd Hh ws done. rewrite (run_header_read e w h Hd Hh).
  fold ws. fold done. cbn [fst snd files].
  split; [reflexivity|]. split; [apply write_files_other|]. split.
  - rewrite (new_calls_of e w
               ([CallMkdir (outDir e); CallRead (headerPath e)] ++
                List.map (fun pc => CallWrite (fst pc) (snd pc))
                         (attempted (locked w) ws))).
    + cbn [app writes flat_map]. apply writes_of_writes.
    + rewrite (run_header_read e w h Hd Hh). reflexivity.
  - split; [apply until_locked_prefix|].
    destruct (decide (length done = 4%nat)) as [Hl|Hl].
    + split; [intros _|reflexivity]. apply until_locked_all. exact Hl.
    + split; [discriminate|]. intros Hall. exfalso. apply Hl.
      rewrite Hall. reflexivity.
Qed.

Lemma emission_stops_at_first_refusal_witness :
  (outDir sample_env ∉ locked half_locked_world) /\
  header_is sample_env half_locked_world sample_header /\
  let ws := artifacts sample_env sample_header in
  let done := until_locked (locked half_locked_world) ws in
  files (snd (run sample_env half_locked_world)) =
    write_files done (files half_locked_world) /\
  (forall p, ~ In p (List.map fst done) ->
             files (snd (run sample_env half_locked_world)) !! p =
             files half_locked_world !! p) /\
  writes (new_calls sample_env half_locked_world) =
    attempted (locked half_locked_world) ws /\
  (exists rest, ws = done ++ rest) /\
  (fst (run sample_env half_locked_world) = 0 <-> done = ws).
Proof.
  assert (Hd : outDir sample_env ∉ locked half_locked_world).
  { by_decision. }
  assert (Hh : header_is sample_env half_locked_world sample_header).
  { split.
    - by_decision.
    - vm_compute. reflexivity. }
  split; [exact Hd|]. split; [exact Hh|].
  exact (emission_stops_at_first_refusal
           sample_env half_locked_world sample_header Hd Hh).
Defined.

(** ** The exclusion test *)

(** C2, as the design document states it, fails: the callback of [filter]
    also drops every name that has [_reserved] as a substring.  The header
    declares [qpdf_reserved_x]; the name is discovered, it is no member of
    the exclusion list, and it is absent from the export set. *)
Lemma reserved_name_dropped :
  let f := js "qpdf_reserved_x" in
  foundFunctions (js "QPDF_DLL int qpdf_reserved_x(void);") = [f] /\
  ~ In f cppHelpers /\
  ~ In f (exportedFunctions [f]).
Proof.
  vm_compute. split; [reflexivity|]. split; intros H;
    repeat (destruct H as [H|H]; [discriminate|]); exact H.
Qed.

(** C2, amended: a discovered name is absent from the final export set if
    and only if it has [_reserved] as a substring or is, character for
    character, one of the two names of the exclusion list. *)
Theorem exclusion_test found f :
  In f found ->
  (~ In f (exportedFunctions found) <->
   contains (js "_reserved") f \/ In f cppHelpers).
Proof.
  intros Hf. unfold exportedFunctions, assemble.
  rewrite in_app_iff, filter_In, kept_spec. split.
  - intros H. apply dropped_spec. unfold dropped.
    destruct (keeps cppHelpers f) eqn:Hk; [|reflexivity].
    exfalso. apply H. right. split; [exact Hf|]. apply kept_spec, Hk.
  - intros Hd [Hm | [_ [H1 H2]]].
    + pose proof manual_never_dropped as Hall.
      rewrite forallb_forall in Hall. apply Hall in Hm.
      apply kept_spec in Hm. tauto.
    + tauto.
Qed.

Lemma exclusion_test_witness :
  In (js "qpdf_c_wrap") [js "qpdf_init"; js "qpdf_c_wrap"] /\
  (~ In (js "qpdf_c_wrap")
        (exportedFunctions [js "qpdf_init"; js "qpdf_c_wrap"]) <->
   contains (js "_reserved") (js "qpdf_c_wrap") \/
   In (js "qpdf_c_wrap") cppHelpers).
Proof.
  assert (H : In (js "qpdf_c_wrap") [js "qpdf_init"; js "qpdf_c_wrap"]).
  { right. left. reflexivity. }
  split; [exact H|].
  exact (exclusion_test [js "qpdf_init"; js "qpdf_c_wrap"] (js "qpdf_c_wrap") H).
Defined.

(** ** The order of the export set *)

(** C3, as the design document states it, fails for the same reason: with
    the lists of the script and one discovered name that has [_reserved] in
    it, the export set is the manual list alone, not the manual list
    followed by that name. *)
Lemma assemble_differs_from_specified :
  let f := js "qpdf_reserved_x" in
  ~ In f cppHelpers /\
  assemble manualCFunctions cppHelpers [f] = manualCFunctions /\
  assemble_as_specified manualCFunctions cppHelpers [f] = manualCFunctions ++ [f] /\
  assemble manualCFunctions cppHelpers [f] <>
  assemble_as_specified manualCFunctions cppHelpers [f].
Proof.
  vm_compute. split.
  - intros H. repeat (destruct H as [H|H]; [discriminate|]). exact H.
  - repeat split; discriminate.
Qed.

(** C3, amended: for every manual list, exclusion list and sequence of
    discovered names, the export set is the manual list, unchanged and
    first, followed by the discovered names in their source order without
    those that have [_reserved] as a substring or are in the exclusion
    list; nothing else is removed and nothing is merged.  With no
    discovered name the export set is the manual list. *)
Theorem assemble_order manual exclude found :
  let final := assemble manual exclude found in
  let suffix := skipn (length manual) final in
  final = manual ++ suffix /\
  firstn (length manual) final = manual /\
  sublist suffix found /\
  (forall f, In f suffix <->
     In f found /\ ~ contains (js "_reserved") f /\ ~ In f exclude) /\
  (forall f, occurrences f suffix =
     if dropped exclude f then 0%nat else occurrences f found) /\
  assemble manual exclude [] = manual.
Proof.
  intros final suffix. subst final suffix.
  rewrite assemble_suffix, assemble_prefix.
  split; [reflexivity|]. split; [reflexivity|].
  split; [apply filter_sublist|].
  split; [|split].
  - intros f. rewrite filter_In, kept_spec. tauto.
  - intros f. rewrite occurrences_filter. unfold dropped.
    destruct (keeps exclude f); reflexivity.
  - unfold assemble. cbn [List.filter]. apply app_nil_r.
Qed.

(** ** A header that cannot be read *)

(** C4: when the directory is made and the header cannot be read (it is
    missing or the read is refused), the process ends with status 1, the
    first line on the error stream ends with the path that was tried, no
    file is changed and no write is called. *)
Theorem unreadable_header_fails_fast e w :
  outDir e ∉ locked w -> header_unreadable e w ->
  let w' := snd (run e w) in
  fst (run e w) = 1 /\
  stderr w' = stderr w ++ readFailure (headerPath e) /\
  contains (headerPath e) (nth 0 (readFailure (headerPath e)) []) /\
  files w' = files w /\
  writes (new_calls e w) = [].
Proof.
  intros Hd Hu w'. subst w'.
  assert (Hc : new_calls e w = [CallMkdir (outDir e); CallRead (headerPath e)]).
  { apply new_calls_of. rewrite (run_header_unreadable e w Hd Hu). reflexivity. }
  rewrite Hc. rewrite (run_header_unreadable e w Hd Hu). cbn [fst snd stderr files].
  repeat split.
  unfold readFailure. cbn [nth].
  rewrite app_assoc. apply contains_suffix.
Qed.

Lemma unreadable_header_fails_fast_witness :
  (outDir sample_env ∉ locked bare_world) /\
  header_unreadable sample_env bare_world /\
  let w' := snd (run sample_env bare_world) in
  fst (run sample_env bare_world) = 1 /\
  stderr w' = stderr bare_world ++ readFailure (headerPath sample_env) /\
  contains (headerPath sample_env)
           (nth 0 (readFailure (headerPath sample_env)) []) /\
  files w' = files bare_world /\
  writes (new_calls sample_env bare_world) = [].
Proof.
  assert (Hd : outDir sample_env ∉ locked bare_world).
  { apply not_elem_of_empty. }
  assert (Hu : header_unreadable sample_env bare_world).
  { right. reflexivity. }
  split; [exact Hd|]. split; [exact Hu|].
  exact (unreadable_header_fails_fast sample_env bare_world Hd Hu).
Defined.

(** ** Comments *)





(** ** Return types of several words *)

(** C6: a declaration in the comment-free text made of the marker, white
    space, a return type of one or more words (letters, digits,
    underscores, white space and stars, so [unsigned long] or
    [char const*]), white space, an identifier that starts with [qpdf_],
    optional white space and an opening parenthesis is discovered: the
    match at its start captures exactly the identifier, and whatever text
    precedes it the identifier is among the discovered names, after which
    the scan resumes behind the parenthesis. *)
Theorem multi_word_return_type_discovered
        header pre ws1 rtype ws2 name ws3 post :
  well_shaped ws1 rtype ws2 name ws3 = true ->
  contentWithoutComments header =
    pre ++ declaration ws1 rtype ws2 name ws3 ++ post ->
  match_at funcRegex (declaration ws1 rtype ws2 name ws3 ++ post) =
    Some (length (declaration ws1 rtype ws2 name ws3), js "qpdf_" ++ name) /\
  exists before,
    foundFunctions header =
    before ++ (js "qpdf_" ++ name) :: exec_all funcRegex 0 post.
Proof.
  intros Hw Hc. split.
  - apply match_declaration, Hw.
  - unfold foundFunctions. rewrite Hc. apply scan_declaration, Hw.
Qed.

Lemma multi_word_return_type_discovered_witness :
  let header := js "/* size */ QPDF_DLL unsigned long qpdf_foo(void);" in
  let pre := js " " in
  let ws1 := js " " in
  let rtype := js "unsigned long" in
  let ws2 := js " " in
  let name := js "foo" in
  let ws3 := js "" in
  let post := js "void);" in
  well_shaped ws1 rtype ws2 name ws3 = true /\
  contentWithoutComments header =
    pre ++ declaration ws1 rtype ws2 name ws3 ++ post /\
  match_at funcRegex (declaration ws1 rtype ws2 name ws3 ++ post) =
    Some (length (declaration ws1 rtype ws2 name ws3), js "qpdf_foo") /\
  exists before,
    foundFunctions header =
    before ++ js "qpdf_foo" :: exec_all funcRegex 0 post.
Proof.
  intros header pre ws1 rtype ws2 name ws3 post.
  assert (Hw : well_shaped ws1 rtype ws2 name ws3 = true) by reflexivity.
  assert (Hc : contentWithoutComments header =
               pre ++ declaration ws1 rtype ws2 name ws3 ++ post)
    by (vm_compute; reflexivity).
  split; [exact Hw|]. split; [exact Hc|].
  exact (multi_word_return_type_discovered
           header pre ws1 rtype ws2 name ws3 post Hw Hc).
Defined.

(** ** Duplicates *)



(** ** The export list and the typed mirror *)

(** C8: in a run that ends with status 0 the export list and the typed
    mirror are rendered from one list of names.  Read back, the strings
    between quotes in [exported-functions.txt] are these names with an
    underscore in front, and the strings between quotes in the
    [allExportedFunctions] constant of [runtime-methods.ts] are these names
    themselves: a name is in the mirror exactly when the name with the
    underscore is in the export list. *)
Theorem export_list_matches_typed_mirror e w :
  fst (run e w) = 0 ->
  exists exported,
    In (artifactPath e "exported-functions.txt", functionsContent exported)
       (writes (new_calls e w)) /\
    In (artifactPath e "runtime-methods.ts", tsContent exported)
       (writes (new_calls e w)) /\
    tsContent exported =
      tsBanner ++ tsArray (js "allExportedFunctions") exported ++ nl ++
      tsArray (js "allRuntimeMethods") runtimeMethods /\
    quoted_strings (functionsContent exported) =
      List.map (app (js "_")) exported /\
    quoted_strings (tsArray (js "allExportedFunctions") exported) = exported /\
    (forall f,
       In f (quoted_strings (tsArray (js "allExportedFunctions") exported)) <->
       In (js "_" ++ f) (quoted_strings (functionsContent exported))).
Proof.
  intros H. destruct (run_status_zero e w H) as [_ [h [Hh _]]].
  exists (exportedFunctions (foundFunctions h)).
  pose proof (exported_no_quote h) as Hq.
  rewrite (run_success e w h Hh H).
  rewrite quoted_functionsContent, quoted_tsArray by (exact Hq || reflexivity).
  unfold artifacts. cbn [In].
  split; [auto|]. split; [auto 6|]. split; [reflexivity|].
  split; [reflexivity|]. split; [reflexivity|].
  intros f. rewrite in_map_iff. split.
  - intros Hf. exists f. auto.
  - intros [g [Hg Hin]]. apply app_inv_head in Hg. subst. exact Hin.
Qed.

Lemma export_list_matches_typed_mirror_witness :
  fst (run sample_env sample_world) = 0 /\
  exists exported,
    In (artifactPath sample_env "exported-functions.txt",
        functionsContent exported)
       (writes (new_calls sample_env sample_world)) /\
    In (artifactPath sample_env "runtime-methods.ts", tsContent exported)
       (writes (new_calls sample_env sample_world)) /\
    tsContent exported =
      tsBanner ++ tsArray (js "allExportedFunctions") exported ++ nl ++
      tsArray (js "allRuntimeMethods") runtimeMethods /\
    quoted_strings (functionsContent exported) =
      List.map (app (js "_")) exported /\
    quoted_strings (tsArray (js "allExportedFunctions") exported) = exported /\
    (forall f,
       In f (quoted_strings (tsArray (js "allExportedFunctions") exported)) <->
       In (js "_" ++ f) (quoted_strings (functionsContent exported))).
Proof.
  assert (H : fst (run sample_env sample_world) = 0) by (vm_compute; reflexivity).
  split; [exact H|].
  exact (export_list_matches_typed_mirror sample_env sample_world H).
Defined.

(** ** Two runs *)

(** C9: the content of the four artifacts is a function of the content of
    the header.  Two runs that read the same header content and end with
    status 0, with whatever arguments, directories, earlier files and
    earlier output, pass the same four strings to their four writes, in the
    same order. *)
Theorem artifacts_depend_on_header_only e1 w1 e2 w2 h :
  header_is e1 w1 h -> header_is e2 w2 h ->
  fst (run e1 w1) = 0 -> fst (run e2 w2) = 0 ->
  List.map snd (writes (new_calls e1 w1)) =
  List.map snd (writes (new_calls e2 w2)) /\
  List.map snd (writes (new_calls e1 w1)) =
    [ functionsContent (exportedFunctions (foundFunctions h));
      runtimeContent; incomingContent;
      tsContent (exportedFunctions (foundFunctions h)) ] /\
  List.map fst (writes (new_calls e1 w1)) =
    [ artifactPath e1 "exported-functions.txt";
      artifactPath e1 "exported-runtime-methods.txt";
      artifactPath e1 "exported-incoming-methods.txt";
      artifactPath e1 "runtime-methods.ts" ].
Proof.
  intros Hh1 Hh2 H1 H2.
  rewrite (run_success e1 w1 h Hh1 H1), (run_success e2 w2 h Hh2 H2).
  repeat split.
Qed.

Lemma artifacts_depend_on_header_only_witness :
  header_is sample_env sample_world sample_header /\
  header_is other_env other_world sample_header /\
  fst (run sample_env sample_world) = 0 /\
  fst (run other_env other_world) = 0 /\
  List.map snd (writes (new_calls sample_env sample_world)) =
  List.map snd (writes (new_calls other_env other_world)) /\
  List.map snd (writes (new_calls sample_env sample_world)) =
    [ functionsContent (exportedFunctions (foundFunctions sample_header));
      runtimeContent; incomingContent;
      tsContent (exportedFunctions (foundFunctions sample_header)) ] /\
  List.map fst (writes (new_calls sample_env sample_world)) =
    [ artifactPath sample_env "exported-functions.txt";
      artifactPath sample_env "exported-runtime-methods.txt";
      artifactPath sample_env "exported-incoming-methods.txt";
      artifactPath sample_env "runtime-methods.ts" ].
Proof.
  assert (Hh1 : header_is sample_env sample_world sample_header).
  { split; [apply not_elem_of_empty | vm_compute; reflexivity]. }
  assert (Hh2 : header_is other_env other_world sample_header).
  { split; [apply not_elem_of_empty | vm_compute; reflexivity]. }
  assert (H1 : fst (run sample_env sample_world) = 0) by (vm_compute; reflexivity).
  assert (H2 : fst (run other_env other_world) = 0) by (vm_compute; reflexivity).
  split; [exact Hh1|]. split; [exact Hh2|]. split; [exact H1|]. split; [exact H2|].
  exact (artifacts_depend_on_header_only
           sample_env sample_world other_env other_world sample_header
           Hh1 Hh2 H1 H2).
Defined.

(** ** The output directory *)

(** The first call of every run makes the output directory. *)
Lemma first_call_makes_directory e w :
  exists rest, new_calls e w = CallMkdir (outDir e) :: rest.
Proof.
  destruct (decide (outDir e ∈ locked w)) as [Hd|Hd].
  { exists []. apply new_calls_of. rewrite run_mkdir_refused by exact Hd.
    reflexivity. }
  destruct (header_cases e w) as [Hu | [h Hh]].
  - eexists. apply new_calls_of.
    rewrite run_header_unreadable by assumption. reflexivity.
  - eexists. apply new_calls_of.
    rewrite (run_header_read e w h Hd Hh). reflexivity.
Qed.



(** * Further properties *)

(** Facts about sample inputs, by evaluation. *)
Ltac not_contained :=
  let H := fresh in
  intros H; apply includes_spec in H; vm_compute in H; discriminate.

Ltac distinct_paths :=
  repeat (constructor;
          [ let H := fresh in
            intros H; cbn [In] in H;
            repeat (destruct H as [H|H]; [vm_compute in H; discriminate|]);
            exact H | ]);
  constructor.

(** ** The command line *)

Lemma index_of_first x pre rest :
  ~ In x pre -> index_of x (pre ++ x :: rest) = Some (length pre).
Proof.
  induction pre as [|y pre IH]; intros H; cbn [app index_of length].
  - rewrite text_eqb_refl. reflexivity.
  - destruct (text_eqb y x) eqn:He.
    + apply text_eqb_eq in He. subst. exfalso. apply H. left. reflexivity.
    + rewrite IH; [reflexivity|]. intros Hin. apply H. right. exact Hin.
Qed.

Lemma index_of_absent x l : ~ In x l -> index_of x l = None.
Proof.
  induction l as [|y l IH]; intros H; cbn [index_of].
  - reflexivity.
  - destruct (text_eqb y x) eqn:He.
    + apply text_eqb_eq in He. subst. exfalso. apply H. left. reflexivity.
    + rewrite IH; [reflexivity|]. intros Hin. apply H. right. exact Hin.
Qed.

Lemma nth_error_after (pre : list text) x rest :
  nth_error (pre ++ x :: rest) (S (length pre)) = nth_error rest 0.
Proof.
  induction pre as [|y pre IH]; cbn [app length nth_error].
  - reflexivity.
  - exact IH.
Qed.

Lemma include_dir_of_flag e pre v rest :
  ~ In includeFlag pre -> v <> [] ->
  args e = pre ++ includeFlag :: v :: rest ->
  includeDir e = resolve e [cwd e; v].
Proof.
  intros Hpre Hv Ha. unfold includeDir. rewrite Ha.
  fold includeFlag. rewrite (index_of_first _ _ _ Hpre), nth_error_after.
  cbn [nth_error]. destruct v; [contradiction|reflexivity].
Qed.

(** X1: the argument after the first [--qpdf-include], when it is not the
    empty string, is the include directory, resolved against the working
    directory; the header is [qpdf-c.h] in that directory. *)
Theorem include_flag_takes_next_argument e pre v rest :
  ~ In includeFlag pre -> v <> [] ->
  args e = pre ++ includeFlag :: v :: rest ->
  includeDir e = resolve e [cwd e; v] /\
  headerPath e = resolve e [resolve e [cwd e; v]; js "qpdf-c.h"].
Proof.
  intros Hpre Hv Ha.
  pose proof (include_dir_of_flag e pre v rest Hpre Hv Ha) as Hi.
  split; [exact Hi|]. unfold headerPath. rewrite Hi. reflexivity.
Qed.

Lemma include_flag_takes_next_argument_witness :
  ~ In includeFlag [js "/repo/build"] /\
  js "/repo/lib/qpdf/include/qpdf" <> [] /\
  args sample_env =
    [js "/repo/build"] ++ includeFlag :: js "/repo/lib/qpdf/include/qpdf" :: [] /\
  includeDir sample_env =
    resolve sample_env [cwd sample_env; js "/repo/lib/qpdf/include/qpdf"] /\
  headerPath sample_env =
    resolve sample_env
      [resolve sample_env [cwd sample_env; js "/repo/lib/qpdf/include/qpdf"];
       js "qpdf-c.h"].
Proof.
  assert (H1 : ~ In includeFlag [js "/repo/build"]).
  { intros [H|[]]. vm_compute in H. discriminate. }
  assert (H2 : js "/repo/lib/qpdf/include/qpdf" <> []) by discriminate.
  assert (H3 : args sample_env =
               [js "/repo/build"] ++ includeFlag ::
               js "/repo/lib/qpdf/include/qpdf" :: []) by reflexivity.
  split; [exact H1|]. split; [exact H2|]. split; [exact H3|].
  exact (include_flag_takes_next_argument sample_env _ _ _ H1 H2 H3).
Defined.

(** X2: without the flag, with the flag as the last argument, or with the
    empty string after its first occurrence, the include directory is the
    one two levels above the script, [../../qpdf/include/qpdf]. *)
Theorem include_flag_without_value e :
  (~ In includeFlag (args e) \/
   exists pre, ~ In includeFlag pre /\
     (args e = pre ++ [includeFlag] \/
      exists rest, args e = pre ++ includeFlag :: [] :: rest)) ->
  includeDir e = defaultIncludeDir e.
Proof.
  unfold includeDir, defaultIncludeDir. fold includeFlag.
  intros [H | [pre [Hpre [H | [rest H]]]]].
  - rewrite (index_of_absent _ _ H). reflexivity.
  - rewrite H, (index_of_first _ _ _ Hpre), nth_error_after. reflexivity.
  - rewrite H, (index_of_first _ _ _ Hpre), nth_error_after. reflexivity.
Qed.

Lemma include_flag_without_value_witness :
  (~ In includeFlag (args flag_last_env) \/
   exists pre, ~ In includeFlag pre /\
     (args flag_last_env = pre ++ [includeFlag] \/
      exists rest, args flag_last_env = pre ++ includeFlag :: [] :: rest)) /\
  includeDir flag_last_env = defaultIncludeDir flag_last_env.
Proof.
  assert (H : ~ In includeFlag (args flag_last_env) \/
              exists pre, ~ In includeFlag pre /\
                (args flag_last_env = pre ++ [includeFlag] \/
                 exists rest, args flag_last_env = pre ++ includeFlag :: [] :: rest)).
  { right. exists [js "/repo/build"]. split.
    - intros [H|[]]. vm_compute in H. discriminate.
    - left. reflexivity. }
  split; [exact H|]. exact (include_flag_without_value flag_last_env H).
Defined.

(** X3: the first argument is the output directory whatever it is.  When
    the flag comes first, the directory the run makes is named after the
    flag itself, and the argument after the flag is still the include
    directory. *)
Theorem flag_first_names_output_directory e w v rest :
  v <> [] -> args e = includeFlag :: v :: rest ->
  outDir e = resolve e [includeFlag] /\
  includeDir e = resolve e [cwd e; v] /\
  exists calls', new_calls e w =
                 CallMkdir (resolve e [includeFlag]) :: calls'.
Proof.
  intros Hv Ha.
  assert (Ho : outDir e = resolve e [includeFlag]).
  { unfold outDir. rewrite Ha. reflexivity. }
  split; [exact Ho|]. split.
  - apply (include_dir_of_flag e [] v rest); auto.
  - rewrite <- Ho. apply first_call_makes_directory.
Qed.

Lemma flag_first_names_output_directory_witness :
  js "/repo/lib/qpdf/include/qpdf" <> [] /\
  args flag_first_env = includeFlag :: js "/repo/lib/qpdf/include/qpdf" :: [] /\
  outDir flag_first_env = resolve flag_first_env [includeFlag] /\
  includeDir flag_first_env =
    resolve flag_first_env [cwd flag_first_env; js "/repo/lib/qpdf/include/qpdf"] /\
  exists calls', new_calls flag_first_env bare_world =
                 CallMkdir (resolve flag_first_env [includeFlag]) :: calls'.
Proof.
  assert (H1 : js "/repo/lib/qpdf/include/qpdf" <> []) by discriminate.
  assert (H2 : args flag_first_env =
               includeFlag :: js "/repo/lib/qpdf/include/qpdf" :: []) by reflexivity.
  split; [exact H1|]. split; [exact H2|].
  exact (flag_first_names_output_directory flag_first_env bare_world _ _ H1 H2).
Defined.

(** ** Runs *)

Lemma artifacts_paths e h : List.map fst (artifacts e h) = artifactPaths e.
Proof. reflexivity. Qed.

Lemma until_locked_paths L ws p :
  In p (List.map fst (until_locked L ws)) -> In p (List.map fst ws).
Proof.
  destruct (until_locked_prefix L ws) as [rest Hr]. intros H.
  rewrite Hr at 1. rewrite map_app. apply in_or_app. left. exact H.
Qed.


Lemma lookup_write_files ws fs p :
  write_files ws fs !! p =
  match last_write p ws with Some c => Some c | None => fs !! p end.
Proof.
  unfold write_files. revert fs.
  induction ws as [|[q c] ws IH]; intros fs; cbn [fold_left last_write fst snd].
  - reflexivity.
  - rewrite IH. destruct (last_write p ws); [reflexivity|].
    destruct (decide (q = p)) as [->|Hq].
    + apply lookup_insert_eq.
    + apply lookup_insert_ne, Hq.
Qed.

Lemma write_files_twice ws fs :
  write_files ws (write_files ws fs) = write_files ws fs.
Proof.
  apply map_eq. intros p. rewrite !lookup_write_files.
  destruct (last_write p ws); reflexivity.
Qed.

Lemma last_write_unique ws p c :
  List.NoDup (List.map fst ws) -> In (p, c) ws -> last_write p ws = Some c.
Proof.
  induction ws as [|[q d] ws IH]; cbn [List.map fst In last_write].
  - intros _ [].
  - intros Hnd Hin. apply List.NoDup_cons_iff in Hnd as [Hq Hnd].
    destruct Hin as [[= -> ->] | Hin].
    + assert (Hn : last_write p ws = None).
      { clear -Hq. induction ws as [|[q d] ws IH]; cbn [last_write]; [reflexivity|].
        cbn [List.map fst In] in Hq. rewrite IH by tauto.
        destruct (decide (q = p)); [tauto|reflexivity]. }
      rewrite Hn. rewrite decide_True by reflexivity. reflexivity.
    + rewrite (IH Hnd Hin). reflexivity.
Qed.

(** The three ways a run goes. *)
Lemma run_cases e w :
  (outDir e ∈ locked w) \/
  ((outDir e ∉ locked w) /\ header_unreadable e w) \/
  ((outDir e ∉ locked w) /\ exists h, header_is e w h).
Proof.
  destruct (decide (outDir e ∈ locked w)); [tauto|].
  destruct (header_cases e w); [tauto|]. right. right. tauto.
Qed.




(** X6: after a run with status 0 whose four artifact paths are distinct,
    each path holds the content rendered for it. *)
Theorem artifacts_on_disk e w h p c :
  List.NoDup (artifactPaths e) -> header_is e w h -> fst (run e w) = 0 ->
  In (p, c) (artifacts e h) ->
  files (snd (run e w)) !! p = Some c.
Proof.
  intros Hnd Hh H0 Hin.
  destruct (run_status_zero e w H0) as [Hd [h' [Hh' Hall]]].
  assert (h' = h) as ->.
  { destruct Hh as [_ Hh], Hh' as [_ Hh']. congruence. }
  rewrite (run_header_read e w h Hd Hh). cbn [snd files]. rewrite Hall.
  rewrite lookup_write_files, (last_write_unique _ p c); auto.
Qed.

Lemma artifacts_on_disk_witness :
  List.NoDup (artifactPaths sample_env) /\
  header_is sample_env sample_world sample_header /\
  fst (run sample_env sample_world) = 0 /\
  In (artifactPath sample_env "exported-runtime-methods.txt", runtimeContent)
     (artifacts sample_env sample_header) /\
  files (snd (run sample_env sample_world)) !!
    artifactPath sample_env "exported-runtime-methods.txt" = Some runtimeContent.
Proof.
  assert (H1 : List.NoDup (artifactPaths sample_env)).
  { unfold artifactPaths. distinct_paths. }
  assert (H2 : header_is sample_env sample_world sample_header).
  { split; [apply not_elem_of_empty | vm_compute; reflexivity]. }
  assert (H3 : fst (run sample_env sample_world) = 0) by (vm_compute; reflexivity).
  assert (H4 : In (artifactPath sample_env "exported-runtime-methods.txt",
                   runtimeContent) (artifacts sample_env sample_header)).
  { right. left. reflexivity. }
  split; [exact H1|]. split; [exact H2|]. split; [exact H3|]. split; [exact H4|].
  exact (artifacts_on_disk sample_env sample_world sample_header _ _ H1 H2 H3 H4).
Defined.

(** X7: a run changes no file other than the four artifact paths, whether
    it succeeds or fails, and it changes no lock. *)
Theorem other_files_untouched e w p :
  ~ In p (artifactPaths e) ->
  files (snd (run e w)) !! p = files w !! p /\
  locked (snd (run e w)) = locked w.
Proof.
  intros Hp. destruct (run_cases e w) as [Hd | [[Hd Hu] | [Hd [h Hh]]]].
  - rewrite run_mkdir_refused by exact Hd. split; reflexivity.
  - rewrite run_header_unreadable by assumption. split; reflexivity.
  - rewrite (run_header_read e w h Hd Hh). cbn [snd files locked].
    split; [|reflexivity]. apply write_files_other. intros Hin. apply Hp.
    rewrite <- (artifacts_paths e h). eapply until_locked_paths, Hin.
Qed.

Lemma other_files_untouched_witness :
  ~ In (headerPath sample_env) (artifactPaths sample_env) /\
  files (snd (run sample_env sample_world)) !! headerPath sample_env =
    files sample_world !! headerPath sample_env /\
  locked (snd (run sample_env sample_world)) = locked sample_world.
Proof.
  assert (H : ~ In (headerPath sample_env) (artifactPaths sample_env)).
  { intros H. cbn [artifactPaths In] in H.
    repeat (destruct H as [H|H]; [vm_compute in H; discriminate|]). exact H. }
  split; [exact H|].
  exact (other_files_untouched sample_env sample_world _ H).
Defined.


(** X9: a second run after a run with status 0, the header not being one
    of the artifacts, ends with status 0 as well, passes the same four
    contents to its writes and leaves files and directories as the first
    run left them. *)
Theorem second_run_changes_nothing e w :
  fst (run e w) = 0 -> ~ In (headerPath e) (artifactPaths e) ->
  let w1 := snd (run e w) in
  fst (run e w1) = 0 /\
  files (snd (run e w1)) = files w1 /\
  dirs (snd (run e w1)) = dirs w1 /\
  List.map snd (writes (new_calls e w1)) = List.map snd (writes (new_calls e w)).
Proof.
  intros H0 Hhp w1.
  destruct (run_status_zero e w H0) as [Hd [h [Hh Hall]]].
  assert (Hw1 : w1 = snd (run e w)) by reflexivity.
  rewrite (run_header_read e w h Hd Hh) in Hw1. cbn [snd] in Hw1.
  rewrite Hall in Hw1.
  assert (Hd1 : outDir e ∉ locked w1) by (rewrite Hw1; exact Hd).
  assert (Hh1 : header_is e w1 h).
  { destruct Hh as [Hl Hf]. split; [rewrite Hw1; exact Hl|].
    rewrite Hw1. cbn [files]. rewrite write_files_other; [exact Hf|].
    rewrite artifacts_paths. exact Hhp. }
  assert (Hall1 : until_locked (locked w1) (artifacts e h) = artifacts e h).
  { rewrite Hw1. exact Hall. }
  assert (H1 : fst (run e w1) = 0).
  { rewrite (run_header_read e w1 h Hd1 Hh1). cbn [fst]. rewrite Hall1.
    rewrite decide_True by reflexivity. reflexivity. }
  split; [exact H1|]. split; [|split].
  - rewrite (run_header_read e w1 h Hd1 Hh1). cbn [snd files]. rewrite Hall1.
    rewrite Hw1. cbn [files]. apply write_files_twice.
  - rewrite (run_header_read e w1 h Hd1 Hh1). cbn [snd dirs].
    rewrite Hw1. cbn [dirs]. rewrite (assoc_L (∪)), union_idemp_L. reflexivity.
  - rewrite (run_success e w1 h Hh1 H1), (run_success e w h Hh H0). reflexivity.
Qed.

Lemma second_run_changes_nothing_witness :
  fst (run sample_env sample_world) = 0 /\
  ~ In (headerPath sample_env) (artifactPaths sample_env) /\
  let w1 := snd (run sample_env sample_world) in
  fst (run sample_env w1) = 0 /\
  files (snd (run sample_env w1)) = files w1 /\
  dirs (snd (run sample_env w1)) = dirs w1 /\
  List.map snd (writes (new_calls sample_env w1)) =
  List.map snd (writes (new_calls sample_env sample_world)).
Proof.
  assert (H1 : fst (run sample_env sample_world) = 0) by (vm_compute; reflexivity).
  assert (H2 : ~ In (headerPath sample_env) (artifactPaths sample_env)).
  { intros H. cbn [artifactPaths In] in H.
    repeat (destruct H as [H|H]; [vm_compute in H; discriminate|]). exact H. }
  split; [exact H1|]. split; [exact H2|].
  exact (second_run_changes_nothing sample_env sample_world H1 H2).
Defined.


(** ** The comment passes *)

Lemma replace_empty_sublist r k s : sublist (replace_empty r k s) s.
Proof.
  revert k. induction s as [|c s IH]; intros k; cbn [replace_empty].
  - constructor.
  - destruct k as [|k]; [|constructor; apply IH].
    destruct (match_at r (c :: s)) as [[[|n] g]|]; constructor; apply IH.
Qed.

(** X10: the two comment passes only remove characters: the comment-free
    text is a subsequence of the header, so it is no longer than the header
    and holds no character the header does not hold. *)
Theorem stripping_only_removes h :
  sublist (contentWithoutComments h) h /\
  (length (contentWithoutComments h) <= length h)%nat /\
  (forall c, In c (contentWithoutComments h) -> In c h).
Proof.
  assert (H : sublist (contentWithoutComments h) h).
  { unfold contentWithoutComments, stripLineComments, stripBlockComments.
    etransitivity; apply replace_empty_sublist. }
  split; [exact H|]. split; [apply sublist_length, H|].
  intros c Hc. apply list_elem_of_In. apply list_elem_of_In in Hc.
  eapply elem_of_sublist; eauto.
Qed.

Lemma find_close_found s k :
  find_close s = Some k -> contains (js "*/") s.
Proof.
  revert k. induction s as [|c s IH]; intros k; cbn [find_close].
  - discriminate.
  - destruct ((c =? 42) && _) eqn:Hc.
    + intros _. apply andb_true_iff in Hc as [Hc Hd].
      destruct s as [|d s]; [discriminate|].
      apply N.eqb_eq in Hc, Hd. subst. exists [], s. reflexivity.
    + destruct (find_close s) as [j|]; [|discriminate].
      intros _. destruct (IH j eq_refl) as [pre [post ->]].
      exists (c :: pre), post. reflexivity.
Qed.

Lemma contains_tail c needle s : contains needle s -> contains needle (c :: s).
Proof. intros [pre [post ->]]. exists (c :: pre), post. reflexivity. Qed.

Lemma block_pass_without_close s :
  ~ contains (js "*/") s -> stripBlockComments s = s.
Proof.
  unfold stripBlockComments. induction s as [|c s IH]; intros H.
  - reflexivity.
  - rewrite replace_nomatch.
    + f_equal. apply IH. intros Hc. apply H, contains_tail, Hc.
    + rewrite block_match. destruct s as [|d s]; [reflexivity|].
      destruct ((c =? 47) && (d =? 42)); [|reflexivity].
      destruct (find_close s) as [k|] eqn:Hk; [|reflexivity].
      exfalso. apply H. do 2 apply contains_tail. eapply find_close_found, Hk.
Qed.

Lemma has_line_marker_spec s :
  has_line_marker s = true <-> contains (js "//") s.
Proof.
  induction s as [|c s IH]; cbn [has_line_marker].
  - split; [discriminate|]. intros [pre [post H]]. destruct pre; discriminate.
  - rewrite orb_true_iff, IH. split.
    + intros [H | H].
      * apply andb_true_iff in H as [Hc Hd]. destruct s as [|d s]; [discriminate|].
        apply N.eqb_eq in Hc, Hd. subst. exists [], s. reflexivity.
      * apply contains_tail, H.
    + intros [pre [post H]]. destruct pre as [|x pre].
      * left. cbn in H. injection H as -> ->. reflexivity.
      * right. injection H as -> ->. exists pre, post. reflexivity.
Qed.

Lemma scan_lines_without_marker s :
  has_line_marker s = false -> scan_lines false s = s.
Proof.
  induction s as [|c s IH]; cbn [has_line_marker scan_lines].
  - reflexivity.
  - intros H. apply orb_false_iff in H as [Hc Hs]. rewrite Hc.
    f_equal. apply IH, Hs.
Qed.

(** X11: a header with no closing marker of a block comment and no two
    slashes in a row comes out of the two passes unchanged; in particular
    a block comment that is never closed is not removed. *)
Theorem text_without_comment_ends_unchanged h :
  ~ contains (js "*/") h -> ~ contains (js "//") h ->
  contentWithoutComments h = h.
Proof.
  intros Hb Hl. unfold contentWithoutComments.
  rewrite (block_pass_without_close h Hb), stripLineComments_scan.
  apply scan_lines_without_marker.
  destruct (has_line_marker h) eqn:Hm; [|reflexivity].
  exfalso. apply Hl, has_line_marker_spec, Hm.
Qed.

Lemma text_without_comment_ends_unchanged_witness :
  let h := js "int a; /* QPDF_DLL int qpdf_open(void);" in
  ~ contains (js "*/") h /\ ~ contains (js "//") h /\
  contentWithoutComments h = h.
Proof.
  intros h.
  assert (H1 : ~ contains (js "*/") h) by not_contained.
  assert (H2 : ~ contains (js "//") h) by not_contained.
  split; [exact H1|]. split; [exact H2|].
  exact (text_without_comment_ends_unchanged h H1 H2).
Defined.

Lemma scan_lines_terminators inside s :
  List.filter is_line_terminator (scan_lines inside s) =
  List.filter is_line_terminator s.
Proof.
  revert inside. induction s as [|c s IH]; intros inside; cbn [scan_lines List.filter].
  - reflexivity.
  - destruct inside.
    + destruct (is_line_terminator c) eqn:Hc.
      * cbn [List.filter]. rewrite Hc, IH. reflexivity.
      * apply IH.
    + destruct ((c =? 47) && _) eqn:Hcd.
      * apply andb_true_iff in Hcd as [Hc _].
        rewrite (slash_not_terminator c Hc). apply IH.
      * cbn [List.filter]. rewrite IH. reflexivity.
Qed.

(** X12: the line-comment pass keeps every line terminator, in order: it
    never joins two lines. *)
Theorem line_pass_keeps_line_ends s :
  List.filter is_line_terminator (stripLineComments s) =
  List.filter is_line_terminator s.
Proof. rewrite stripLineComments_scan. apply scan_lines_terminators. Qed.

Lemma scan_lines_head s :
  match s with d :: _ => d =? 47 | [] => false end = false ->
  match scan_lines false s with d :: _ => d =? 47 | [] => false end = false.
Proof.
  destruct s as [|d s]; [reflexivity|]. cbn [scan_lines]. intros Hd.
  rewrite Hd. cbn [andb]. exact Hd.
Qed.

Lemma scan_lines_inside_head s :
  match scan_lines true s with d :: _ => d =? 47 | [] => false end = false.
Proof.
  induction s as [|c s IH]; cbn [scan_lines]; [reflexivity|].
  destruct (is_line_terminator c) eqn:Hc; [|exact IH].
  destruct (N.eqb_spec c 47) as [->|]; [discriminate|reflexivity].
Qed.

Lemma scan_lines_no_marker inside s :
  has_line_marker (scan_lines inside s) = false.
Proof.
  revert inside. induction s as [|c s IH]; intros inside; cbn [scan_lines].
  - reflexivity.
  - destruct inside.
    + destruct (is_line_terminator c) eqn:Hc; [|apply IH].
      cbn [has_line_marker]. rewrite IH.
      destruct (N.eqb_spec c 47) as [->|]; [discriminate|reflexivity].
    + destruct ((c =? 47) && _) eqn:Hcd; [apply IH|].
      cbn [has_line_marker]. rewrite IH, orb_false_r.
      destruct (c =? 47) eqn:Hc; [|reflexivity]. cbn [andb] in *.
      apply scan_lines_head, Hcd.
Qed.

(** X13: no two slashes in a row are left in the comment-free text, and
    the line-comment pass applied to it once more changes nothing. *)
Theorem no_line_comment_left h :
  ~ contains (js "//") (contentWithoutComments h) /\
  stripLineComments (contentWithoutComments h) = contentWithoutComments h.
Proof.
  assert (H : has_line_marker (contentWithoutComments h) = false).
  { unfold contentWithoutComments. rewrite stripLineComments_scan.
    apply scan_lines_no_marker. }
  split.
  - intros Hc. apply has_line_marker_spec in Hc. congruence.
  - rewrite stripLineComments_scan. apply scan_lines_without_marker, H.
Qed.

(** ** The scan and the artifacts *)

(** X14: the declaration pattern matches at the start of [s], with length
    [n] and group [g], exactly when [s] starts with the marker, white
    space, a run of type characters, white space, [qpdf_] and word
    characters, optional white space and an opening parenthesis, [n] being
    the length of that prefix and [g] the identifier in it. *)
Theorem declaration_pattern_language s n g :
  match_at funcRegex s = Some (n, g) <->
  exists ws1 rtype ws2 name ws3 rest,
    well_shaped ws1 rtype ws2 name ws3 = true /\
    s = declaration ws1 rtype ws2 name ws3 ++ rest /\
    n = length (declaration ws1 rtype ws2 name ws3) /\
    g = js "qpdf_" ++ name.
Proof.
  split.
  - apply func_match_shape.
  - intros (ws1 & rtype & ws2 & name & ws3 & rest & Hw & -> & -> & ->).
    apply match_declaration, Hw.
Qed.

(** Every capture of the loop is the group of a match at some index. *)
Lemma exec_all_origin r k s g :
  In g (exec_all r k s) ->
  exists pre s' n, s = pre ++ s' /\ match_at r s' = Some (n, g).
Proof.
  revert k. induction s as [|c s IH]; intros k; cbn [exec_all].
  - intros [].
  - assert (Hrec : forall k', In g (exec_all r k' s) ->
              exists pre s' n, c :: s = pre ++ s' /\ match_at r s' = Some (n, g)).
    { intros k' H. destruct (IH k' H) as (pre & s' & n & -> & Hm).
      exists (c :: pre), s', n. auto. }
    destruct k as [|k]; [|apply Hrec].
    destruct (match_at r (c :: s)) as [[[|n] g']|] eqn:Hm; try apply Hrec.
    intros [<- | H]; [|eapply Hrec, H].
    exists [], (c :: s), (S n). auto.
Qed.

Lemma found_origin h g :
  In g (foundFunctions h) ->
  exists pre ws1 rtype ws2 name ws3 post,
    well_shaped ws1 rtype ws2 name ws3 = true /\
    contentWithoutComments h = pre ++ declaration ws1 rtype ws2 name ws3 ++ post /\
    g = js "qpdf_" ++ name.
Proof.
  intros H. apply exec_all_origin in H as (pre & s' & n & Hs & Hm).
  apply func_match_shape in Hm as (a & b & c & w & d & rest & Hw & -> & _ & ->).
  exists pre, a, b, c, w, d, rest. auto.
Qed.

(** X15: every discovered name is [qpdf_] followed by one or more word
    characters, and every name of the export set is made of word
    characters alone. *)
Theorem discovered_names_are_identifiers h :
  Forall (fun g => exists w, g = js "qpdf_" ++ w /\ w <> [] /\
                             forallb is_word w = true)
         (foundFunctions h) /\
  Forall (fun f => forallb is_word f = true)
         (exportedFunctions (foundFunctions h)).
Proof.
  assert (H : Forall (fun g => exists w, g = js "qpdf_" ++ w /\ w <> [] /\
                                         forallb is_word w = true)
                     (foundFunctions h)).
  { apply List.Forall_forall. intros g Hg.
    apply found_origin in Hg as (pre & a & b & c & w & d & post & Hw & _ & ->).
    unfold well_shaped in Hw. rewrite !andb_true_iff, !nonempty_spec in Hw.
    exists w. tauto. }
  split; [exact H|].
  unfold exportedFunctions, assemble. apply List.Forall_app. split.
  - apply List.Forall_forall. intros f Hf.
    assert (Hm : forallb (fun f => forallb is_word f) manualCFunctions = true)
      by (vm_compute; reflexivity).
    rewrite forallb_forall in Hm. apply Hm, Hf.
  - apply List.Forall_forall. intros f Hf. apply filter_In in Hf as [Hf _].
    rewrite List.Forall_forall in H. destruct (H f Hf) as (w & -> & _ & Hw).
    rewrite forallb_app, Hw. reflexivity.
Qed.

(** X16: every discovered name is the identifier of a well-shaped
    declaration that stands in the comment-free text. *)
Theorem discovered_names_are_declared h :
  Forall (fun g =>
            exists pre ws1 rtype ws2 name ws3 post,
              well_shaped ws1 rtype ws2 name ws3 = true /\
              contentWithoutComments h =
                pre ++ declaration ws1 rtype ws2 name ws3 ++ post /\
              g = js "qpdf_" ++ name)
         (foundFunctions h).
Proof. apply List.Forall_forall. intros g. apply found_origin. Qed.

(** X17: when the comment-free text does not hold the marker [QPDF_DLL],
    nothing is discovered and the export set is the manual list. *)
Theorem no_marker_no_discovery h :
  ~ contains (js "QPDF_DLL") (contentWithoutComments h) ->
  foundFunctions h = [] /\
  exportedFunctions (foundFunctions h) = manualCFunctions.
Proof.
  intros H. assert (Hf : foundFunctions h = []).
  { destruct (foundFunctions h) as [|g l] eqn:Hg; [reflexivity|].
    exfalso. apply H.
    destruct (found_origin h g) as (pre & a & b & c & w & d & post & _ & Hc & _).
    { rewrite Hg. left. reflexivity. }
    rewrite Hc. unfold declaration. exists pre. eexists.
    rewrite <- !app_assoc. reflexivity. }
  rewrite Hf. split; reflexivity.
Qed.

Lemma no_marker_no_discovery_witness :
  let h := js "int qpdf_init(void); // QPDF_DLL int qpdf_old(void);" in
  ~ contains (js "QPDF_DLL") (contentWithoutComments h) /\
  foundFunctions h = [] /\
  exportedFunctions (foundFunctions h) = manualCFunctions.
Proof.
  intros h.
  assert (H : ~ contains (js "QPDF_DLL") (contentWithoutComments h))
    by not_contained.
  split; [exact H|]. exact (no_marker_no_discovery h H).
Defined.

(** X18: whatever was discovered, no name of the export set has
    [_reserved] as a substring or is one of the two helpers with C++
    linkage. *)
Theorem dropped_names_never_exported found :
  Forall (fun f => ~ contains (js "_reserved") f /\ ~ In f cppHelpers)
         (exportedFunctions found).
Proof.
  unfold exportedFunctions, assemble. apply List.Forall_app. split.
  - apply List.Forall_forall. intros f Hf. apply kept_spec.
    pose proof manual_never_dropped as H. rewrite forallb_forall in H. auto.
  - apply List.Forall_forall. intros f Hf. apply filter_In in Hf as [_ Hf].
    apply kept_spec, Hf.
Qed.

Lemma quoted_tsArray_app name items rest :
  no_quote name = true -> forallb no_quote items = true ->
  quoted_from false [] (tsArray name items ++ rest) =
  items ++ quoted_from false [] rest.
Proof.
  intros Hn H. unfold tsArray. rewrite <- !app_assoc.
  rewrite quoted_outside by reflexivity.
  rewrite quoted_outside by exact Hn.
  rewrite quoted_outside by reflexivity.
  rewrite quoted_outside by reflexivity.
  rewrite (quoted_join (js "," ++ nl) (js "  ") (fun f => f) items).
  - rewrite map_id. f_equal.
  - reflexivity.
  - reflexivity.
  - exact H.
Qed.

Lemma quoted_tsBanner rest :
  quoted_from false [] (tsBanner ++ rest) =
  js "emscripten" :: quoted_from false [] rest.
Proof.
  reflexivity.
Qed.

(** X19: read back, the strings between quotes in the typed mirror are
    [emscripten], the exported names and the runtime methods, in this
    order; those in the runtime-methods artifact are the runtime methods
    and those in the incoming-methods artifact are the incoming methods. *)
Theorem artifacts_read_back h :
  let exported := exportedFunctions (foundFunctions h) in
  quoted_strings (tsContent exported) =
    js "emscripten" :: exported ++ runtimeMethods /\
  quoted_strings runtimeContent = runtimeMethods /\
  quoted_strings incomingContent = incomingMethods.
Proof.
  intros exported. split; [|split; vm_compute; reflexivity].
  unfold quoted_strings, tsContent.
  rewrite quoted_tsBanner.
  rewrite quoted_tsArray_app by (reflexivity || apply exported_no_quote).
  reflexivity.
Qed.

Lemma open_parens_app a b :
  open_parens (a ++ b) = (open_parens a + open_parens b)%nat.
Proof. unfold open_parens. rewrite List.filter_app, length_app. reflexivity. Qed.

Lemma open_parens_sublist a b :
  sublist a b -> (open_parens a <= open_parens b)%nat.
Proof.
  unfold open_parens. induction 1 as [|x a b _ IH|x a b _ IH]; cbn [List.filter].
  - lia.
  - destruct (x =? 40); cbn [length]; lia.
  - destruct (x =? 40); cbn [length]; lia.
Qed.

Lemma exec_all_parens k s :
  (length (exec_all funcRegex k s) <= open_parens (skipn k s))%nat.
Proof.
  revert k. induction s as [|c s IH]; intros k; cbn [exec_all].
  - cbn. lia.
  - destruct k as [|k]; [|apply IH].
    assert (Hstep : (open_parens s <= open_parens (c :: s))%nat).
    { apply open_parens_sublist. constructor. reflexivity. }
    pose proof (IH 0%nat) as H0. rewrite drop_0 in *.
    destruct (match_at funcRegex (c :: s)) as [[[|n] g]|] eqn:Hm; try lia.
    cbn [length]. specialize (IH n).
    apply func_match_shape in Hm as (a & b & d & w & x & rest & _ & Hs & Hn & _).
    change (skipn n s) with (skipn (S n) (c :: s)) in IH.
    rewrite Hs, Hn, drop_app_length in IH.
    rewrite Hs, declaration_body, !open_parens_app.
    change (open_parens [40]) with 1%nat. lia.
Qed.

(** X20: there is at most one discovered name for each opening
    parenthesis of the comment-free text, and so of the header. *)
Theorem one_name_per_parenthesis h :
  (length (foundFunctions h) <= open_parens (contentWithoutComments h))%nat /\
  (length (foundFunctions h) <= open_parens h)%nat.
Proof.
  pose proof (exec_all_parens 0 (contentWithoutComments h)) as H.
  rewrite drop_0 in H. fold (foundFunctions h) in H.
  split; [exact H|].
  etransitivity; [exact H|]. apply open_parens_sublist.
  unfold contentWithoutComments, stripLineComments, stripBlockComments.
  etransitivity; apply replace_empty_sublist.
Qed.

(** ** The standard output *)

Lemma new_stdout_of e w ls :
  stdout (snd (run e w)) = stdout w ++ ls -> new_stdout e w = ls.
Proof. intros H. unfold new_stdout. rewrite H. apply drop_app_length. Qed.

Ltac other_line H :=
  apply (f_equal (hd 0)) in H; vm_compute in H; discriminate.

(** X22: the first two lines a run prints name the output directory and
    the include directory; the line that reports success is printed
    exactly when the status is 0, and a run with status 0 prints six
    lines. *)
Theorem success_line_iff_status_zero e w :
  firstn 2 (new_stdout e w) =
    [js "Output Directory: " ++ outDir e;
     js "Include Directory: " ++ includeDir e] /\
  (In (successLine e) (new_stdout e w) <-> fst (run e w) = 0) /\
  (fst (run e w) = 0 -> length (new_stdout e w) = 6%nat).
Proof.
  destruct (run_cases e w) as [Hd | [[Hd Hu] | [Hd [h Hh]]]].
  - rewrite (new_stdout_of e w
               [js "Output Directory: " ++ outDir e;
                js "Include Directory: " ++ includeDir e])
      by (rewrite run_mkdir_refused by exact Hd; reflexivity).
    rewrite run_mkdir_refused by exact Hd. cbn [fst].
    split; [reflexivity|]. split; [|discriminate]. split; [|discriminate].
    intros [H|[H|[]]]; other_line H.
  - rewrite (new_stdout_of e w
               [js "Output Directory: " ++ outDir e;
                js "Include Directory: " ++ includeDir e;
                js "Parsing header: " ++ headerPath e])
      by (rewrite run_header_unreadable by assumption; reflexivity).
    rewrite run_header_unreadable by assumption. cbn [fst].
    split; [reflexivity|]. split; [|discriminate]. split; [|discriminate].
    intros [H|[H|[H|[]]]]; other_line H.
  - pose proof (run_header_read e w h Hd Hh) as Hrun. cbn zeta in Hrun.
    rewrite (new_stdout_of e w _ (f_equal (fun r => stdout (snd r)) Hrun)).
    rewrite Hrun. cbn [fst].
    split; [reflexivity|].
    destruct (decide (length (until_locked (locked w) (artifacts e h)) = 4%nat)).
    + split; [|reflexivity]. split; [reflexivity|].
      intros _. do 5 right. left. reflexivity.
    + split; [|discriminate]. split; [|discriminate].
      unfold summary. cbn [app].
      intros [H|[H|[H|[H|[H|[]]]]]]; other_line H.
Qed.
